(** * crawl_ultravox_docs.py: the chunker, the enricher, the document
      pipeline and the crawl gate, embedded in Rocq.

    A Python [str] is a sequence of Unicode code points; it is modelled as
    a list of code points [N].  Python integers are unbounded and are
    modelled as [Z]; [str.rfind] returns [-1] when nothing is found and
    slices clamp their bounds, both written out below.  A call that can
    raise returns a [result]; the provider, the clock, the URL parser and
    the store are read from a [World]; what is printed to the console is
    left out. *)

From Stdlib Require Import String Ascii ZArith NArith List Bool Lia.
From Stdlib Require Import Floats.SpecFloat.
Import ListNotations.

Local Open Scope Z_scope.

#[local] Set Warnings "-register-all".

(** * Part I: the program *)

(** ** Python strings *)

Definition char := N.
Definition str := list char.

(** A literal of the source, as a list of code points. *)
Definition lit (s : string) : str := map N_of_ascii (list_ascii_of_string s).

(** [len(s)] *)
Definition len (s : str) : Z := Z.of_nat (length s).

(** How Python normalises a slice bound [i] on a sequence of length [n]:
    a negative bound counts from the end, and the result is clamped to
    [0 .. n]. *)
Definition norm_index (n i : Z) : Z :=
  if i <? 0 then Z.max (i + n) 0 else Z.min i n.

(** [s[a:b]] *)
Definition slice (s : str) (a b : Z) : str :=
  let a' := norm_index (len s) a in
  let b' := norm_index (len s) b in
  firstn (Z.to_nat (b' - a')) (skipn (Z.to_nat a') s).

(** [s[a:]] *)
Definition slice_from (s : str) (a : Z) : str :=
  skipn (Z.to_nat (norm_index (len s) a)) s.

(** [c.isspace()] on one code point, as CPython decides it: the ASCII
    table (0x09-0x0D, 0x1C-0x20) and the Unicode white-space code points. *)
Definition isspace (c : char) : bool :=
  (((9 <=? c) && (c <=? 13)) || ((28 <=? c) && (c <=? 32))
   || (c =? 133) || (c =? 160) || (c =? 5760)
   || ((8192 <=? c) && (c <=? 8202))
   || (c =? 8232) || (c =? 8233) || (c =? 8239) || (c =? 8287)
   || (c =? 12288))%N.

(** [s.lstrip()]: the string without its leading white space. *)
Fixpoint lstrip (s : str) : str :=
  match s with
  | [] => []
  | c :: s' => if isspace c then lstrip s' else s
  end.

(** [s.rstrip()]: the string without its trailing white space. *)
Fixpoint rstrip (s : str) : str :=
  match s with
  | [] => []
  | c :: s' =>
      match rstrip s' with
      | [] => if isspace c then [] else [c]
      | r => c :: r
      end
  end.

(** [s.strip()] *)
Definition strip (s : str) : str := rstrip (lstrip s).

(** A string made of white space only (the empty string included). *)
Definition whitespace_only (s : str) : bool := forallb isspace s.

(** [s.startswith(sub)] *)
Fixpoint starts_with (sub s : str) : bool :=
  match sub, s with
  | [], _ => true
  | _ :: _, [] => false
  | c :: sub', d :: s' => (c =? d)%N && starts_with sub' s'
  end.

(** [sub] occurs in [s] at index [i]. *)
Definition occurs_at (sub s : str) (i : Z) : Prop :=
  0 <= i /\ starts_with sub (skipn (Z.to_nat i) s) = true
  /\ i + len sub <= len s.

(** [rfind_from sub s i]: the highest index at which [sub] occurs in [s],
    counted from [i] for the head of [s]; [-1] when there is none. *)
Fixpoint rfind_from (sub s : str) (i : Z) : Z :=
  match s with
  | [] => if starts_with sub [] then i else -1
  | _ :: s' =>
      let r := rfind_from sub s' (i + 1) in
      if 0 <=? r then r else if starts_with sub s then i else -1
  end.

(** [s.rfind(sub)] *)
Definition rfind (s sub : str) : Z := rfind_from sub s 0.

(** [sub in s] *)
Fixpoint contains (sub s : str) : bool :=
  starts_with sub s ||
  match s with
  | [] => false
  | _ :: s' => contains sub s'
  end.

(** ** chunk_text *)

Definition fence : str := lit "```".
Definition blank_line : str := [10; 10]%N.
Definition period_space : str := lit ". ".

(** [k > chunk_size * 0.3] for an integer [k].  Python compares the
    integer [k] exactly with the binary64 product.  For a [chunk_size]
    below 2^50 (no text in memory is longer) that product is three tenths
    of [chunk_size] when this is an integer, and otherwise lies between the
    same two integers, so the test is [10 k > 3 chunk_size]. *)
Definition above_30 (k chunk_size : Z) : bool := 3 * chunk_size <? 10 * k.

(** Lines 48-59: the cut point chosen inside the window
    [text[start : start + chunk_size]]. *)
Definition adjusted_end (text : str) (chunk_size start : Z) : Z :=
  let end_ := start + chunk_size in
  let chunk := slice text start end_ in
  let code_block := rfind chunk fence in
  if negb (code_block =? -1) && above_30 code_block chunk_size then
    start + code_block
  else if contains blank_line chunk then
    let last_break := rfind chunk blank_line in
    if above_30 last_break chunk_size then start + last_break else end_
  else if contains period_space chunk then
    let last_period := rfind chunk period_space in
    if above_30 last_period chunk_size then start + last_period + 1 else end_
  else end_.

(** What one pass through the body of the [while] loop does. *)
Inductive iteration : Type :=
| Break (chunks : list str)
| Continue (start : Z) (chunks : list str).

(** [chunks.append(chunk)] under [if chunk:] (a non-empty string is true). *)
Definition append_if_nonempty (chunks : list str) (chunk : str) : list str :=
  match chunk with
  | [] => chunks
  | _ :: _ => chunks ++ [chunk]
  end.

(** Lines 43-64. *)
Definition loop_body (text : str) (chunk_size start : Z) (chunks : list str)
  : iteration :=
  let end_ := start + chunk_size in
  if len text <=? end_ then
    Break (chunks ++ [strip (slice_from text start)])
  else
    let end' := adjusted_end text chunk_size start in
    let chunk := strip (slice text start end') in
    Continue (Z.max (start + 1) end') (append_if_nonempty chunks chunk).

(** The [while start < text_length] loop, run for at most [fuel] passes;
    [None] when the fuel runs out before the loop ends. *)
Fixpoint chunk_loop (fuel : nat) (text : str) (chunk_size start : Z)
  (chunks : list str) : option (list str) :=
  if start <? len text then
    match fuel with
    | O => None
    | S fuel' =>
        match loop_body text chunk_size start chunks with
        | Break chunks' => Some chunks'
        | Continue start' chunks' =>
            chunk_loop fuel' text chunk_size start' chunks'
        end
    end
  else Some chunks.

(** [chunk_text(text, chunk_size)].  One pass per character is always
    enough ([chunk_loop_enough_fuel] below), so the default branch is
    never taken. *)
Definition chunk_text (text : str) (chunk_size : Z) : list str :=
  match chunk_loop (length text) text chunk_size 0 [] with
  | Some chunks => chunks
  | None => []
  end.

(** The default [chunk_size = 5000]. *)
Definition default_chunk_size : Z := 5000.

(** ** Python values, exceptions and traces *)

(** The values that [json.loads] can return and that the records of this
    program hold.  A [dict] keeps its items in insertion order. *)
Inductive value : Type :=
| VNone
| VBool (b : bool)
| VInt (n : Z)
| VFloat (f : spec_float)
| VStr (s : str)
| VList (items : list value)
| VDict (items : list (str * value)).

Inductive exn : Type :=
| KeyError (key : str)
| TypeError
| ValueError
| ProviderError.

(** A call returns a value or raises. *)
Inductive result (A : Type) : Type :=
| Ok (a : A)
| Raise (e : exn).
Arguments Ok {A} a.
Arguments Raise {A} e.

Definition bind {A B : Type} (r : result A) (k : A -> result B) : result B :=
  match r with
  | Ok a => k a
  | Raise e => Raise e
  end.

Notation "x <- r ;; k" := (bind r (fun x => k))
  (at level 61, r at next level, right associativity).

Fixpoint str_eqb (s t : str) : bool :=
  match s, t with
  | [], [] => true
  | c :: s', d :: t' => (c =? d)%N && str_eqb s' t'
  | _, _ => false
  end.

Fixpoint dict_get (items : list (str * value)) (key : str) : option value :=
  match items with
  | [] => None
  | (k, v) :: items' => if str_eqb k key then Some v else dict_get items' key
  end.

(** [v[key]] for a string [key]: a [dict] without the key raises
    [KeyError]; a list or a string wants integer indices and the other
    values are not subscriptable, which is a [TypeError] each time. *)
Definition getitem (v : value) (key : str) : result value :=
  match v with
  | VDict items =>
      match dict_get items key with
      | Some x => Ok x
      | None => Raise (KeyError key)
      end
  | _ => Raise TypeError
  end.

(** ** The data model *)

Record ProcessedChunk : Type := {
  url : str;
  chunk_number : Z;
  title : value;
  summary : value;
  content : str;
  metadata : list (str * value);
  embedding : list value
}.

(** ** The external collaborators *)

(** What lines 77-85 can do: the request (or reading
    [response.choices[0].message.content]) raises; or the content comes back
    and [json.loads] rejects it; or [json.loads] returns a value. *)
Inductive completion : Type :=
| CallRaises
| ContentNotJson
| ContentJson (v : value).

(** The world outside the program: the LLM provider (what it does with
    the system and user messages of a title/summary request, and with the
    text of an embedding request), the clock, the URL parser of the
    standard library (which raises [ValueError] on some strings) and the
    store. *)
Record World : Type := {
  chat_completions_create : str -> str -> completion;
  embeddings_create : str -> result (list value);
  utcnow_isoformat : str;
  urlparse_path : str -> result str;
  table_insert_execute : list (str * value) -> result value
}.

(** ** The enricher *)

Definition newline : str := [10]%N.

Definition system_prompt : str :=
  lit "You are an AI that extracts titles and summaries from documentation chunks.
	Return a JSON object with 'title' and 'summary' keys.
	For the title: If this seems like the start of a document, extract its title. If it's a middle chunk, derive a descriptive title.
	For the summary: Create a concise summary of the main points in this chunk.
	Keep both title and summary concise but informative.".

Definition error_title : str := lit "Error processing title".
Definition error_summary : str := lit "Error processing summary".

(** The dict returned by the [except] branch of [get_title_and_summary]. *)
Definition error_title_and_summary : value :=
  VDict [(lit "title", VStr error_title); (lit "summary", VStr error_summary)].

(** Lines 68-88.  The function itself never raises: whatever happens in
    the [try] is caught. *)
Definition get_title_and_summary (w : World) (chunk url : str) : value :=
  let user_content :=
    lit "URL: " ++ url ++ newline ++ newline ++ lit "Content:" ++ newline
    ++ slice chunk 0 1000 ++ lit "..." in
  match chat_completions_create w system_prompt user_content with
  | ContentJson v => v
  | CallRaises | ContentNotJson => error_title_and_summary
  end.

(** The number of zeros of the fallback embedding. *)
Definition embedding_dimension : nat := 1536.

(** Lines 90-100. *)
Definition get_embedding (w : World) (text : str) : list value :=
  match embeddings_create w text with
  | Ok v => v
  | Raise _ => repeat (VInt 0) embedding_dimension
  end.

(** Lines 102-122.  The metadata dict is built before the record, so a
    failure of [urlparse] comes before the look-ups in [extracted]. *)
Definition process_chunk (w : World) (chunk : str) (chunk_number : Z)
  (url : str) : result ProcessedChunk :=
  let extracted := get_title_and_summary w chunk url in
  let embedding := get_embedding w chunk in
  path <- urlparse_path w url ;;
  let metadata :=
    [(lit "source", VStr (lit "ultravox_docs"));
     (lit "chunk_size", VInt (len chunk));
     (lit "crawled_at", VStr (utcnow_isoformat w));
     (lit "url_path", VStr path)] in
  title <- getitem extracted (lit "title") ;;
  summary <- getitem extracted (lit "summary") ;;
  Ok {| url := url; chunk_number := chunk_number; title := title;
        summary := summary; content := chunk; metadata := metadata;
        embedding := embedding |}.

(** ** The store writer *)

(** Lines 124-142: the fields of the record, sent to the store; a failure
    of the store is caught and [None] is returned. *)
Definition insert_chunk (w : World) (chunk : ProcessedChunk) : value :=
  let data :=
    [(lit "url", VStr (url chunk));
     (lit "chunk_number", VInt (chunk_number chunk));
     (lit "title", title chunk);
     (lit "summary", summary chunk);
     (lit "content", VStr (content chunk));
     (lit "metadata", VDict (metadata chunk));
     (lit "embedding", VList (embedding chunk))] in
  match table_insert_execute w data with
  | Ok r => r
  | Raise _ => VNone
  end.

(** ** The document pipeline *)

(** The calls a run makes into the enricher and the store writer. *)
Inductive event : Type :=
| ProcessChunkCalled (chunk : str) (chunk_number : Z) (url : str)
| InsertChunkCalled (chunk : ProcessedChunk).

(** A task: the calls it makes and how it ends. *)
Definition task (A : Type) : Type := list event * result A.

Fixpoint all_ok {A : Type} (rs : list (result A)) : result (list A) :=
  match rs with
  | [] => Ok []
  | r :: rs' => a <- r ;; (l <- all_ok rs' ;; Ok (a :: l))
  end.

(** [await asyncio.gather] over a list of tasks: every task is started
    and its calls happen; if all of them return, the results come back in
    the order of the tasks; if one raises, its exception is raised to the
    awaiter (of several, the earliest in time: here the earliest in the
    list).  The calls of the tasks interleave in time; they are listed task
    by task. *)
Definition gather {A : Type} (tasks : list (task A)) : task (list A) :=
  (concat (map fst tasks), all_ok (map snd tasks)).

(** [enumerate(l)] *)
Definition enumerate {A : Type} (l : list A) : list (Z * A) :=
  combine (map Z.of_nat (seq 0 (length l))) l.

Definition process_chunk_task (w : World) (url : str) (ic : Z * str)
  : task ProcessedChunk :=
  ([ProcessChunkCalled (snd ic) (fst ic) url],
   process_chunk w (snd ic) (fst ic) url).

Definition insert_chunk_task (w : World) (chunk : ProcessedChunk)
  : task value :=
  ([InsertChunkCalled chunk], Ok (insert_chunk w chunk)).

(** Lines 144-150. *)
Definition process_and_store_document (w : World) (url markdown : str)
  : task unit :=
  let chunks := chunk_text markdown default_chunk_size in
  let tasks := map (process_chunk_task w url) (enumerate chunks) in
  let (calls, gathered) := gather tasks in
  match gathered with
  | Raise e => (calls, Raise e)
  | Ok processed_chunks =>
      let insert_tasks := map (insert_chunk_task w) processed_chunks in
      let (calls', stored) := gather insert_tasks in
      (calls ++ calls', _ <- stored ;; Ok tt)
  end.

(** ** The crawl gate *)

(** Where the task of one URL stands in [process_url] (lines 167-178). *)
Inductive url_task : Type :=
| AtGate      (* created by line 180, not yet past [async with semaphore] *)
| Fetching    (* past the gate, awaiting [crawler.arun] (line 169) *)
| Storing     (* fetch succeeded, awaiting the document pipeline (line 176) *)
| Finished.   (* left the [async with] block, or cancelled at the gate *)

(** The semaphore's counter and the tasks, one per URL. *)
Record crawl_state : Type := {
  permits : Z;
  url_tasks : list url_task
}.

(** [asyncio.Semaphore(value)]: a negative value is refused. *)
Definition Semaphore (value : Z) : result Z :=
  if value <? 0 then Raise ValueError else Ok value.

(** Lines 165-180 up to the first suspension: the semaphore is created
    and one task per URL is handed to [gather]. *)
Definition crawl_parallel_start (urls : list str) (max_concurrent : Z)
  : result crawl_state :=
  sem <- Semaphore max_concurrent ;;
  Ok {| permits := sem; url_tasks := map (fun _ => AtGate) urls |}.

(** What the event loop can let happen next to the task of URL number
    [i].  [asyncio.Semaphore.acquire] goes through only while the counter
    is positive and takes one from it; [release] gives one back. *)
Inductive move : Type :=
| Acquire (i : nat)         (* enters [async with semaphore] (line 168) *)
| FetchSucceeded (i : nat)  (* arun returns, result.success (line 174) *)
| FetchFailed (i : nat)     (* arun returns, not success (line 178); leave *)
| FetchRaised (i : nat)     (* arun raises or is cancelled; leave *)
| DocumentDone (i : nat)    (* the pipeline returns, raises or is cancelled *)
| DroppedAtGate (i : nat).  (* cancelled while waiting to acquire *)

Fixpoint set_task (i : nat) (t : url_task) (l : list url_task)
  : list url_task :=
  match l, i with
  | [], _ => []
  | _ :: l', O => t :: l'
  | a :: l', S i' => a :: set_task i' t l'
  end.

(** Leaving the [async with] block, normally or by an exception, releases
    the semaphore: the counter goes up by one. *)
Definition leave (s : crawl_state) (i : nat) : crawl_state :=
  {| permits := permits s + 1; url_tasks := set_task i Finished (url_tasks s) |}.

Definition step (s : crawl_state) (m : move) : option crawl_state :=
  match m with
  | Acquire i =>
      match nth_error (url_tasks s) i with
      | Some AtGate =>
          if 0 <? permits s then
            Some {| permits := permits s - 1;
                    url_tasks := set_task i Fetching (url_tasks s) |}
          else None
      | _ => None
      end
  | FetchSucceeded i =>
      match nth_error (url_tasks s) i with
      | Some Fetching =>
          Some {| permits := permits s;
                  url_tasks := set_task i Storing (url_tasks s) |}
      | _ => None
      end
  | FetchFailed i | FetchRaised i =>
      match nth_error (url_tasks s) i with
      | Some Fetching => Some (leave s i)
      | _ => None
      end
  | DocumentDone i =>
      match nth_error (url_tasks s) i with
      | Some Storing => Some (leave s i)
      | _ => None
      end
  | DroppedAtGate i =>
      match nth_error (url_tasks s) i with
      | Some AtGate =>
          Some {| permits := permits s;
                  url_tasks := set_task i Finished (url_tasks s) |}
      | _ => None
      end
  end.

(** A schedule: the moves in the order the event loop makes them. *)
Fixpoint run (s : crawl_state) (moves : list move) : option crawl_state :=
  match moves with
  | [] => Some s
  | m :: moves' =>
      match step s m with
      | Some s' => run s' moves'
      | None => None
      end
  end.

(** ** The vocabulary of the statements *)

(** The chunk numbers passed to the enricher, and those of the records
    passed to the store writer, in a list of calls. *)
Fixpoint enriched_numbers (calls : list event) : list Z :=
  match calls with
  | [] => []
  | ProcessChunkCalled _ i _ :: calls' => i :: enriched_numbers calls'
  | InsertChunkCalled _ :: calls' => enriched_numbers calls'
  end.

Fixpoint stored_numbers (calls : list event) : list Z :=
  match calls with
  | [] => []
  | ProcessChunkCalled _ _ _ :: calls' => stored_numbers calls'
  | InsertChunkCalled c :: calls' => chunk_number c :: stored_numbers calls'
  end.

(** [0, 1, ..., n - 1] *)
Definition indices (n : nat) : list Z := map Z.of_nat (seq 0 n).

(** The text up to the scan position, laid out as the chunks found so far,
    each behind the white space that precedes it, and the white space [w]
    that follows the last of them. *)
Definition laid_out (prefix : str) (chunks : list str) : Prop :=
  exists (pairs : list (str * str)) (w : str),
    chunks = map snd pairs
    /\ Forall (fun p => whitespace_only (fst p) = true) pairs
    /\ whitespace_only w = true
    /\ prefix = concat (map (fun p => fst p ++ snd p) pairs) ++ w.

(** [w0 ++ c0 ++ w1 ++ c1 ++ ... ++ wN] *)
Fixpoint interleave (ws cs : list str) : str :=
  match ws, cs with
  | w :: ws', c :: cs' => w ++ c ++ interleave ws' cs'
  | w :: _, [] => w
  | [], _ => []
  end.

(** The window of a pass that reaches line 48. *)
Definition window (text : str) (chunk_size start : Z) : str :=
  slice text start (start + chunk_size).

Definition last_occurrence (sub s : str) (p : Z) : Prop :=
  occurs_at sub s p /\ forall i, occurs_at sub s i -> i <= p.

(** The pass starting at [start] cuts just after the last ". " of its
    window: that is where the chunk ends and where the next pass starts. *)
Definition cuts_after_last_period (text : str) (chunk_size start : Z) : Prop :=
  exists p,
    last_occurrence period_space (window text chunk_size start) p
    /\ adjusted_end text chunk_size start = start + p + 1
    /\ forall chunks,
         loop_body text chunk_size start chunks
         = Continue (start + p + 1)
             (append_if_nonempty chunks
                (strip (slice text start (start + p + 1)))).

Definition is_fetching (t : url_task) : bool :=
  match t with Fetching => true | _ => false end.

Definition holds_slot (t : url_task) : bool :=
  match t with Fetching | Storing => true | _ => false end.

Fixpoint count (p : url_task -> bool) (l : list url_task) : Z :=
  match l with
  | [] => 0
  | t :: l' => (if p t then 1 else 0) + count p l'
  end.

(** The number of fetches in flight. *)
Definition in_flight (s : crawl_state) : Z := count is_fetching (url_tasks s).

(** The number of tasks inside the [async with] block. *)
Definition slots_held (s : crawl_state) : Z := count holds_slot (url_tasks s).

(** The invariant of the gate: the counter never goes below zero, and
    counter plus slots held is the initial value. *)
Definition gate_invariant (max_concurrent : Z) (s : crawl_state) : Prop :=
  0 <= permits s /\ permits s + slots_held s = max_concurrent.

(** ** Inputs of the worked examples *)

(** ["A" * n] *)
Definition times_A (n : Z) : str := repeat 65%N (Z.to_nat n).

Definition docs_url : str := lit "https://docs.ultravox.ai/introduction".

(** A world in which the title/summary call behaves as [c] and the
    embedding call as [e]; it knows the path of [docs_url]. *)
Definition world_with (c : completion) (e : result (list value)) : World := {|
  chat_completions_create := fun _ _ => c;
  embeddings_create := fun _ => e;
  utcnow_isoformat := lit "2025-01-01T00:00:00+00:00";
  urlparse_path := fun u =>
    if str_eqb u docs_url then Ok (lit "/introduction") else Raise ValueError;
  table_insert_execute := fun _ => Ok VNone
|}.

(** The provider answers every title/summary request with the JSON
    object [{}], and every embedding request with a one-element vector. *)
Definition keyless_world : World :=
  world_with (ContentJson (VDict [])) (Ok [VInt 1]).


(** The provider answers with both keys and a one-element vector. *)
Definition answering_world : World :=
  world_with
    (ContentJson (VDict [(lit "title", VStr (lit "Intro"));
                         (lit "summary", VStr (lit "Greets."))]))
    (Ok [VFloat (S754_finite false 1 (-1))]).

(** The record process_chunk makes of "hello" in that world. *)
Definition hello_chunk : ProcessedChunk := {|
  url := docs_url; chunk_number := 0; title := VStr (lit "Intro");
  summary := VStr (lit "Greets."); content := lit "hello";
  metadata :=
    [(lit "source", VStr (lit "ultravox_docs"));
     (lit "chunk_size", VInt 5);
     (lit "crawled_at", VStr (lit "2025-01-01T00:00:00+00:00"));
     (lit "url_path", VStr (lit "/introduction"))];
  embedding := [VFloat (S754_finite false 1 (-1))]
|}.

Definition three_urls : list str :=
  [lit "https://docs.ultravox.ai/introduction";
   lit "https://docs.ultravox.ai/api";
   lit "https://docs.ultravox.ai/tools"].

(** ** URL discovery *)

(** The web as [get_ultravox_docs_urls] sees it: what fetching a page and
    reading the [href] of each of its anchors gives (in document order,
    [None] for an anchor without one; or the exception of the request, of
    [raise_for_status] or of the parser), and [urljoin]. *)
Record Site : Type := {
  page_hrefs : str -> result (list (option str));
  urljoin : str -> str -> result str
}.

Definition base_url : str := lit "https://docs.ultravox.ai".

Definition slash : str := lit "/".

(** [href and href.startswith('/')]: [None] and the empty string are
    false. *)
Definition root_relative (href : option str) : bool :=
  match href with
  | None => false
  | Some h =>
      match h with
      | [] => false
      | _ :: _ => starts_with slash h
      end
  end.

(** [urls.add(u)] on a set kept as a list without repetition. *)
Definition set_add (u : str) (urls : list str) : list str :=
  if existsb (str_eqb u) urls then urls else urls ++ [u].

(** The [for link in soup.find_all('a')] loop of lines 197-201. *)
Fixpoint collect_urls (site : Site) (links : list (option str))
  (urls : list str) : result (list str) :=
  match links with
  | [] => Ok urls
  | href :: links' =>
      if root_relative href then
        match href with
        | Some h =>
            full_url <- urljoin site base_url h ;;
            collect_urls site links' (set_add full_url urls)
        | None => collect_urls site links' urls
        end
      else collect_urls site links' urls
  end.

(** Lines 184-206.  [list(urls)] lists the set in an order Python does
    not specify; here it is the order of first insertion, and the
    statements below speak of membership only. *)
Definition get_ultravox_docs_urls (site : Site) : list str :=
  match
    links <- page_hrefs site (base_url ++ lit "/introduction") ;;
    collect_urls site links []
  with
  | Ok urls => urls
  | Raise _ => []
  end.

(** ** The per-URL task, the crawl and main *)

(** What [crawler.arun] returns: the flag, the error message, and what
    reading [result.markdown_v2.raw_markdown] gives. *)
Record CrawlResult : Type := {
  success : bool;
  error_message : str;
  markdown_v2_raw_markdown : result str
}.

(** Lines 167-178, the body of [process_url] inside the gate: a fetch that
    raises is not caught; a fetch that reports failure is printed and
    skipped; a fetched page goes through the document pipeline. *)
Definition process_url (w : World) (arun : str -> result CrawlResult)
  (u : str) : task unit :=
  match arun u with
  | Raise e => ([], Raise e)
  | Ok fetched =>
      if success fetched then
        match markdown_v2_raw_markdown fetched with
        | Raise e => ([], Raise e)
        | Ok markdown => process_and_store_document w u markdown
        end
      else ([], Ok tt)
  end.

(** Line 180: the per-URL tasks, gathered, for max_concurrent > 0 (the
    gate then decides when each task runs, not what it does).  When every
    task returns, the crawl returns and its calls are those of all the
    tasks; when one raises, the crawl raises, and the tasks that were still
    waiting are cancelled, so that no list of calls is given. *)
Definition crawl_urls (w : World) (arun : str -> result CrawlResult)
  (urls : list str) : result (list event) :=
  match gather (map (process_url w arun) urls) with
  | (calls, Ok _) => Ok calls
  | (_, Raise e) => Raise e
  end.

(** The default of [crawl_parallel]. *)
Definition default_max_concurrent : Z := 5.

Inductive main_outcome : Type :=
| NothingToCrawl
| Crawling (urls : list str) (gate : result crawl_state).

(** Lines 208-216, up to the creation of the gate: without URLs main
    prints and returns; otherwise crawl_parallel is entered with its
    default max_concurrent, and once the browser has started ([started])
    the gate is set up. *)
Definition main (site : Site) (started : result unit) : main_outcome :=
  match get_ultravox_docs_urls site with
  | [] => NothingToCrawl
  | urls =>
      Crawling urls
        (_ <- started ;; crawl_parallel_start urls default_max_concurrent)
  end.

(** ** More vocabulary of the statements *)

(** A string that does not start with white space. *)
Definition no_leading_space (s : str) : Prop :=
  match s with
  | [] => True
  | c :: _ => isspace c = false
  end.

(** The pass starting at [start] cuts at [e]: the chunk is the trimmed
    [text[start:e]] and the next pass starts at [e]. *)
Definition cuts_at (text : str) (chunk_size start e : Z) : Prop :=
  adjusted_end text chunk_size start = e
  /\ forall chunks,
       loop_body text chunk_size start chunks
       = Continue e (append_if_nonempty chunks (strip (slice text start e))).

(** The metadata dict of lines 107-112. *)
Definition metadata_of (w : World) (chunk path : str) : list (str * value) :=
  [(lit "source", VStr (lit "ultravox_docs"));
   (lit "chunk_size", VInt (len chunk));
   (lit "crawled_at", VStr (utcnow_isoformat w));
   (lit "url_path", VStr path)].

(** The records passed to the store writer, in a list of calls. *)
Fixpoint stored_chunks (calls : list event) : list ProcessedChunk :=
  match calls with
  | [] => []
  | ProcessChunkCalled _ _ _ :: calls' => stored_chunks calls'
  | InsertChunkCalled c :: calls' => c :: stored_chunks calls'
  end.

(** The calls of the first phase: process_chunk on every chunk with its
    index. *)
Definition enrich_phase (u : str) (chunks : list str) : list event :=
  map (fun ic : Z * str => ProcessChunkCalled (snd ic) (fst ic) u)
    (enumerate chunks).

(** How often the task number [i] (the task of the [i]-th entry of the
    URL list) enters the gate in a schedule. *)
Fixpoint fetches_started (i : nat) (moves : list move) : nat :=
  match moves with
  | [] => 0
  | Acquire j :: moves' =>
      (if Nat.eqb i j then 1 else 0) + fetches_started i moves'
  | _ :: moves' => fetches_started i moves'
  end.

(** The chunk numbers of the page of one URL, when it was fetched. *)
Definition page_numbers (arun : str -> result CrawlResult) (u : str)
  : list Z :=
  match arun u with
  | Raise _ => []
  | Ok fetched =>
      if success fetched then
        match markdown_v2_raw_markdown fetched with
        | Raise _ => []
        | Ok markdown =>
            indices (length (chunk_text markdown default_chunk_size))
        end
      else []
  end.

(** ** More inputs of the worked examples *)

(** The provider answers every title/summary request with text that is
    not JSON. *)
Definition malformed_world : World :=
  world_with ContentNotJson (Ok [VFloat (S754_finite false 1 (-1))]).

(** A store that hands back the row it is given. *)
Definition echo_world : World := {|
  chat_completions_create := fun _ _ => CallRaises;
  embeddings_create := fun _ => Raise ProviderError;
  utcnow_isoformat := lit "2025-01-01T00:00:00+00:00";
  urlparse_path := fun _ => Raise ValueError;
  table_insert_execute := fun row => Ok (VDict row)
|}.

(** A site whose introduction page links to two pages of the site (one of
    them twice), to another site and to a fragment, and has an anchor
    without [href]; [urljoin] here knows root-relative links only. *)
Definition docs_site : Site := {|
  page_hrefs := fun _ =>
    Ok [Some (lit "/introduction"); Some (lit "https://example.com/");
        None; Some (lit "/api"); Some (lit "#top"); Some (lit "/introduction");
        Some []];
  urljoin := fun base h =>
    if starts_with slash h then Ok (base ++ h) else Raise ValueError
|}.

(** The same page on a site where "/api" cannot be joined. *)
Definition broken_site : Site := {|
  page_hrefs := page_hrefs docs_site;
  urljoin := fun base h =>
    if str_eqb h (lit "/api") then Raise ValueError else urljoin docs_site base h
|}.

(** Every fetch reports failure. *)
Definition arun_failing (u : str) : result CrawlResult :=
  Ok {| success := false; error_message := lit "timeout";
        markdown_v2_raw_markdown := Ok [] |}.

(** Only the introduction page can be fetched. *)
Definition arun_introduction (u : str) : result CrawlResult :=
  if str_eqb u docs_url then
    Ok {| success := true; error_message := [];
          markdown_v2_raw_markdown := Ok (lit "hello") |}
  else arun_failing u.


(** The provider answers as in [answering_world]; the store refuses every
    row. *)
Definition refusing_store_world : World := {|
  chat_completions_create := chat_completions_create answering_world;
  embeddings_create := embeddings_create answering_world;
  utcnow_isoformat := utcnow_isoformat answering_world;
  urlparse_path := urlparse_path answering_world;
  table_insert_execute := fun _ => Raise ProviderError
|}.

(** ** The gate: leaving and entering *)

(** The move [m] takes the task number [i], which is inside the gate, out
    of it, and gives its slot back. *)
Definition ends_and_releases (s : crawl_state) (m : move) (i : nat) : Prop :=
  exists s',
    step s m = Some s'
    /\ nth_error (url_tasks s') i = Some Finished
    /\ permits s' = permits s + 1
    /\ slots_held s' = slots_held s - 1.

Definition is_at_gate (t : url_task) : bool :=
  match t with AtGate => true | _ => false end.

(** How many fetches a schedule starts. *)
Fixpoint fetches_total (moves : list move) : nat :=
  match moves with
  | [] => 0
  | Acquire _ :: moves' => S (fetches_total moves')
  | _ :: moves' => fetches_total moves'
  end.

(** * Part II: what the program does *)

Example chunk_text_small :
  chunk_text (lit "abcd. efghijklmnop") 10
  = [lit "abcd."; lit "efghijklm"; lit "nop"].
Proof. vm_compute. reflexivity. Qed.

(** * Properties of the string operations *)

Lemma len_nonneg (s : str) : 0 <= len s.
Proof. unfold len. lia. Qed.

Lemma len_app (s t : str) : len (s ++ t) = len s + len t.
Proof. unfold len. rewrite length_app. lia. Qed.

Lemma whitespace_only_app (s t : str) :
  whitespace_only (s ++ t) = whitespace_only s && whitespace_only t.
Proof. apply forallb_app. Qed.

(** [lstrip] removes a white-space prefix and nothing else. *)
Lemma lstrip_split (s : str) :
  exists l, whitespace_only l = true /\ s = l ++ lstrip s.
Proof.
  induction s as [|c s [l [Hl Hs]]].
  - exists []. split; reflexivity.
  - simpl. destruct (isspace c) eqn:Hc.
    + exists (c :: l). simpl. rewrite Hc, Hl. split; [reflexivity|].
      f_equal. exact Hs.
    + exists []. split; reflexivity.
Qed.

(** [rstrip] removes a white-space suffix and nothing else. *)
Lemma rstrip_split (s : str) :
  exists r, whitespace_only r = true /\ s = rstrip s ++ r.
Proof.
  induction s as [|c s [r [Hr Hs]]].
  - exists []. split; reflexivity.
  - cbn [rstrip]. destruct (rstrip s) as [|d t] eqn:E.
    + destruct (isspace c) eqn:Hc.
      * exists (c :: r). simpl in *. rewrite Hc, Hr. split; [reflexivity|].
        f_equal. exact Hs.
      * exists r. split; [exact Hr|]. simpl in *. f_equal. exact Hs.
    + exists r. split; [exact Hr|]. rewrite Hs at 1. reflexivity.
Qed.

(** [strip] returns the middle of its argument: what it removes on each
    side is white space. *)
Lemma strip_split (s : str) :
  exists l r, whitespace_only l = true /\ whitespace_only r = true
              /\ s = l ++ strip s ++ r.
Proof.
  destruct (lstrip_split s) as [l [Hl Hs]].
  destruct (rstrip_split (lstrip s)) as [r [Hr Hs']].
  exists l, r. unfold strip. repeat split; try assumption.
  rewrite <- Hs'. exact Hs.
Qed.

Lemma strip_len (s : str) : len (strip s) <= len s.
Proof.
  destruct (strip_split s) as [l [r [_ [_ Hs]]]].
  rewrite Hs at 2. rewrite !len_app.
  pose proof (len_nonneg l). pose proof (len_nonneg r). lia.
Qed.

Lemma starts_with_len (sub s : str) :
  starts_with sub s = true -> len sub <= len s.
Proof.
  revert s. induction sub as [|c sub IH]; intros s H.
  - apply len_nonneg.
  - destruct s as [|d s]; simpl in H; [discriminate|].
    apply andb_prop in H. destruct H as [_ H]. apply IH in H.
    unfold len in *. simpl. lia.
Qed.

(** What [rfind_from] returns: [-1], or an index inside the string at
    which [sub] starts. *)
Lemma rfind_from_found (sub s : str) (i : Z) :
  0 <= i ->
  rfind_from sub s i = -1 \/
  (i <= rfind_from sub s i
   /\ starts_with sub (skipn (Z.to_nat (rfind_from sub s i - i)) s) = true
   /\ rfind_from sub s i + len sub <= i + len s).
Proof.
  revert i. induction s as [|c s IH]; intros i Hi.
  - simpl. destruct sub as [|d sub]; simpl.
    + right. replace (i - i) with 0 by lia. simpl.
      unfold len. simpl. lia.
    + left. reflexivity.
  - cbn [rfind_from].
    destruct (0 <=? rfind_from sub s (i + 1)) eqn:Hr.
    + apply Z.leb_le in Hr.
      destruct (IH (i + 1)) as [Hn | [H1 [H2 H3]]]; [lia | lia |].
      right. split; [lia|]. split.
      * replace (Z.to_nat (rfind_from sub s (i + 1) - i))
          with (S (Z.to_nat (rfind_from sub s (i + 1) - (i + 1)))) by lia.
        exact H2.
      * unfold len in *. simpl. lia.
    + destruct (starts_with sub (c :: s)) eqn:Hs.
      * right. replace (i - i) with 0 by lia. split; [lia|].
        split; [exact Hs|]. apply starts_with_len in Hs. lia.
      * left. reflexivity.
Qed.

(** [rfind_from] returns the highest index at which [sub] starts. *)
Lemma rfind_from_last (sub s : str) (i j : Z) :
  0 <= i -> i <= j ->
  starts_with sub (skipn (Z.to_nat (j - i)) s) = true ->
  j + len sub <= i + len s ->
  j <= rfind_from sub s i.
Proof.
  revert i j. induction s as [|c s IH]; intros i j Hi Hij Hs Hlen.
  - unfold len in Hlen. simpl in Hlen.
    assert (j = i) by lia. subst j.
    assert (sub = []) by (destruct sub; [reflexivity | simpl in Hlen; lia]).
    subst sub. simpl. lia.
  - cbn [rfind_from].
    destruct (Z.eq_dec j i) as [-> | Hne].
    + replace (i - i) with 0 in Hs by lia. simpl skipn in Hs.
      destruct (rfind_from_found sub s (i + 1)) as [Hn | [H1 _]]; [lia | |].
      * rewrite Hn. simpl. rewrite Hs. lia.
      * destruct (0 <=? rfind_from sub s (i + 1)) eqn:Hr; [lia|].
        apply Z.leb_gt in Hr. lia.
    + assert (Hj : j <= rfind_from sub s (i + 1)).
      { apply IH; [lia | lia | |].
        - replace (Z.to_nat (j - i)) with (S (Z.to_nat (j - (i + 1)))) in Hs
            by lia.
          exact Hs.
        - unfold len in *. simpl in Hlen. lia. }
      destruct (0 <=? rfind_from sub s (i + 1)) eqn:Hr; [exact Hj|].
      apply Z.leb_gt in Hr. lia.
Qed.

(** [s.rfind(sub)] is [-1] or the last occurrence of [sub] in [s]. *)
Lemma rfind_spec (s sub : str) :
  (rfind s sub = -1 /\ forall i, ~ occurs_at sub s i)
  \/ (occurs_at sub s (rfind s sub)
      /\ forall i, occurs_at sub s i -> i <= rfind s sub).
Proof.
  unfold rfind.
  assert (Hlast : forall i, occurs_at sub s i -> i <= rfind_from sub s 0).
  { intros i [H0 [Hs Hl]]. apply rfind_from_last; try lia.
    replace (i - 0) with i by lia. exact Hs. }
  destruct (rfind_from_found sub s 0) as [Hn | [H1 [H2 H3]]]; [lia | |].
  - left. split; [exact Hn|]. intros i Hi.
    pose proof (Hlast i Hi) as Hle. destruct Hi as [H0 _]. lia.
  - right. split; [|exact Hlast].
    unfold occurs_at. split; [exact H1|]. split; [|lia].
    replace (rfind_from sub s 0 - 0) with (rfind_from sub s 0) in H2 by lia.
    exact H2.
Qed.

Lemma rfind_range (s sub : str) :
  rfind s sub = -1 \/ (0 <= rfind s sub /\ rfind s sub + len sub <= len s).
Proof.
  destruct (rfind_spec s sub) as [[H _] | [[H0 [_ H1]] _]]; [left | right];
    auto.
Qed.

(** [sub in s] holds exactly when [s.rfind(sub)] finds something. *)
Lemma contains_from (sub s : str) (i : Z) :
  0 <= i -> contains sub s = (0 <=? rfind_from sub s i).
Proof.
  revert i. induction s as [|c s IH]; intros i Hi.
  - simpl. destruct (starts_with sub []); simpl.
    + symmetry. apply Z.leb_le. exact Hi.
    + reflexivity.
  - cbn [contains rfind_from]. rewrite (IH (i + 1)) by lia.
    destruct (0 <=? rfind_from sub s (i + 1)) eqn:Hr.
    + rewrite orb_true_r. symmetry. exact Hr.
    + rewrite orb_false_r. destruct (starts_with sub (c :: s)).
      * symmetry. apply Z.leb_le. exact Hi.
      * reflexivity.
Qed.

Lemma contains_rfind (sub s : str) :
  contains sub s = (0 <=? rfind s sub).
Proof. apply contains_from. lia. Qed.

(** * Properties of slices *)

Lemma slice_inside (s : str) (a b : Z) :
  0 <= a -> a <= b -> b <= len s ->
  slice s a b = firstn (Z.to_nat (b - a)) (skipn (Z.to_nat a) s).
Proof.
  intros Ha Hab Hb. unfold slice, norm_index.
  destruct (a <? 0) eqn:Ea; [apply Z.ltb_lt in Ea; lia|].
  destruct (b <? 0) eqn:Eb; [apply Z.ltb_lt in Eb; lia|].
  rewrite !Z.min_l by lia. reflexivity.
Qed.

Lemma slice_len (s : str) (a b : Z) :
  0 <= a -> a <= b -> b <= len s -> len (slice s a b) = b - a.
Proof.
  intros Ha Hab Hb. rewrite slice_inside by assumption.
  unfold len in *. rewrite length_firstn, length_skipn. lia.
Qed.

Lemma slice_from_inside (s : str) (a : Z) :
  0 <= a -> slice_from s a = skipn (Z.to_nat a) s.
Proof.
  intros Ha. unfold slice_from, norm_index.
  destruct (a <? 0) eqn:Ea; [apply Z.ltb_lt in Ea; lia|].
  destruct (Z.le_ge_cases a (len s)).
  - rewrite Z.min_l by lia. reflexivity.
  - rewrite Z.min_r by lia. unfold len in *.
    rewrite !skipn_all2 by lia. reflexivity.
Qed.

(** The text up to [b] is the text up to [a] followed by [s[a:b]]. *)
Lemma firstn_slice (s : str) (a b : Z) :
  0 <= a -> a <= b -> b <= len s ->
  firstn (Z.to_nat b) s = firstn (Z.to_nat a) s ++ slice s a b.
Proof.
  intros Ha Hab Hb. rewrite slice_inside by assumption.
  replace (Z.to_nat b) with (Z.to_nat a + Z.to_nat (b - a))%nat by lia.
  rewrite <- (firstn_skipn (Z.to_nat a) s) at 1.
  rewrite firstn_app, length_firstn.
  unfold len in Hb.
  replace (Z.to_nat a + Z.to_nat (b - a) - Nat.min (Z.to_nat a) (length s))%nat
    with (Z.to_nat (b - a)) by lia.
  rewrite firstn_firstn.
  replace (Nat.min (Z.to_nat a + Z.to_nat (b - a)) (Z.to_nat a))
    with (Z.to_nat a) by lia.
  reflexivity.
Qed.

(** * The cut point lies inside the window *)

Lemma above_30_pos (k chunk_size : Z) :
  0 < chunk_size -> above_30 k chunk_size = true -> 0 < k.
Proof. unfold above_30. intros Hc H. apply Z.ltb_lt in H. lia. Qed.

Lemma len_fence : len fence = 3.
Proof. reflexivity. Qed.

Lemma len_blank_line : len blank_line = 2.
Proof. reflexivity. Qed.

Lemma len_period_space : len period_space = 2.
Proof. reflexivity. Qed.

Lemma adjusted_end_bounds (text : str) (chunk_size start : Z) :
  0 < chunk_size -> 0 <= start -> start + chunk_size <= len text ->
  start < adjusted_end text chunk_size start <= start + chunk_size.
Proof.
  intros Hc Hs He. unfold adjusted_end.
  pose proof (slice_len text start (start + chunk_size)
                ltac:(lia) ltac:(lia) ltac:(lia)) as Hw.
  set (chunk := slice text start (start + chunk_size)) in *.
  pose proof (rfind_range chunk fence) as Hf. rewrite len_fence in Hf.
  pose proof (rfind_range chunk blank_line) as Hb.
  rewrite len_blank_line in Hb.
  pose proof (rfind_range chunk period_space) as Hp.
  rewrite len_period_space in Hp.
  destruct (negb (rfind chunk fence =? -1) && above_30 (rfind chunk fence) chunk_size)
    eqn:E1.
  - apply andb_prop in E1. destruct E1 as [_ E1].
    apply above_30_pos in E1; lia.
  - destruct (contains blank_line chunk).
    + destruct (above_30 (rfind chunk blank_line) chunk_size) eqn:E2.
      * apply above_30_pos in E2; lia.
      * lia.
    + destruct (contains period_space chunk).
      * destruct (above_30 (rfind chunk period_space) chunk_size) eqn:E3.
        -- apply above_30_pos in E3; lia.
        -- lia.
      * lia.
Qed.

(** * The loop *)

Section Loop.

Variables (text : str) (chunk_size : Z).

(** The loop makes progress: a pass that does not leave the loop moves
    [start] forward by at least one. *)
Lemma loop_body_progress (start : Z) (chunks chunks' : list str) (start' : Z) :
  loop_body text chunk_size start chunks = Continue start' chunks' ->
  start' = Z.max (start + 1) (adjusted_end text chunk_size start)
  /\ start < start'.
Proof.
  unfold loop_body. destruct (len text <=? start + chunk_size); [discriminate|].
  intros H. injection H as <- _. split; [reflexivity | lia].
Qed.

(** One pass per remaining character is enough fuel. *)
Lemma chunk_loop_enough_fuel (fuel : nat) (start : Z) (chunks : list str) :
  len text - start <= Z.of_nat fuel ->
  exists r, chunk_loop fuel text chunk_size start chunks = Some r.
Proof.
  revert start chunks. induction fuel as [|fuel IH]; intros start chunks Hf.
  - simpl. destruct (start <? len text) eqn:E.
    + apply Z.ltb_lt in E. lia.
    + eexists. reflexivity.
  - cbn [chunk_loop]. destruct (start <? len text) eqn:E.
    + destruct (loop_body text chunk_size start chunks) as [c | s' c] eqn:Hb.
      * eexists. reflexivity.
      * apply loop_body_progress in Hb. apply IH. lia.
    + eexists. reflexivity.
Qed.

(** More fuel does not change the result. *)
Lemma chunk_loop_more_fuel (fuel fuel' : nat) (start : Z)
  (chunks r : list str) :
  (fuel <= fuel')%nat ->
  chunk_loop fuel text chunk_size start chunks = Some r ->
  chunk_loop fuel' text chunk_size start chunks = Some r.
Proof.
  revert fuel' start chunks.
  induction fuel as [|fuel IH]; intros fuel' start chunks Hle H.
  - simpl in H. destruct (start <? len text) eqn:E; [discriminate|].
    destruct fuel'; simpl; rewrite E; exact H.
  - destruct fuel' as [|fuel']; [lia|]. cbn [chunk_loop] in *.
    destruct (start <? len text); [|exact H].
    destruct (loop_body text chunk_size start chunks); [exact H|].
    apply IH; [lia | exact H].
Qed.

(** [chunk_text] is the result of the loop. *)
Lemma chunk_text_run :
  chunk_loop (length text) text chunk_size 0 []
  = Some (chunk_text text chunk_size).
Proof.
  unfold chunk_text.
  destruct (chunk_loop_enough_fuel (length text) 0 []) as [r Hr];
    [unfold len; lia|].
  rewrite Hr. reflexivity.
Qed.

(** The invariant rule for the loop: a property kept by every pass and
    established at both exits holds of the result. *)
Variables (I : Z -> list str -> Prop) (Q : list str -> Prop).

Hypothesis init : I 0 [].

Hypothesis pass :
  forall start chunks, I start chunks -> start < len text ->
    match loop_body text chunk_size start chunks with
    | Break chunks' => Q chunks'
    | Continue start' chunks' => I start' chunks'
    end.

Hypothesis at_end :
  forall start chunks, I start chunks -> len text <= start -> Q chunks.

Lemma chunk_loop_invariant (fuel : nat) (start : Z) (chunks r : list str) :
  I start chunks ->
  chunk_loop fuel text chunk_size start chunks = Some r -> Q r.
Proof.
  revert start chunks.
  induction fuel as [|fuel IH]; intros start chunks HI H.
  - simpl in H. destruct (start <? len text) eqn:E; [discriminate|].
    injection H as <-. apply Z.ltb_ge in E. eapply at_end; eauto.
  - cbn [chunk_loop] in H. destruct (start <? len text) eqn:E.
    + apply Z.ltb_lt in E. pose proof (pass start chunks HI E) as Hp.
      destruct (loop_body text chunk_size start chunks) as [c | s' c].
      * injection H as <-. exact Hp.
      * exact (IH s' c Hp H).
    + injection H as <-. apply Z.ltb_ge in E. eapply at_end; eauto.
Qed.

Lemma chunk_text_invariant : Q (chunk_text text chunk_size).
Proof.
  eapply chunk_loop_invariant; [exact init | apply chunk_text_run].
Qed.

End Loop.

(** * Reconstruction of the text from the chunks *)

Lemma laid_out_nil : laid_out [] [].
Proof. exists [], []. repeat split; constructor. Qed.

(** A window [l ++ c ++ r] read after the prefix adds [c] as a chunk. *)
Lemma laid_out_snoc (prefix l c r : str) (chunks : list str) :
  laid_out prefix chunks ->
  whitespace_only l = true -> whitespace_only r = true ->
  laid_out (prefix ++ l ++ c ++ r) (chunks ++ [c]).
Proof.
  intros [pairs [w [Hc [Hp [Hw Hpre]]]]] Hl Hr.
  exists (pairs ++ [(w ++ l, c)]), r. repeat split.
  - rewrite map_app, Hc. reflexivity.
  - apply Forall_app. split; [exact Hp|]. constructor; [|constructor].
    simpl. rewrite whitespace_only_app, Hw, Hl. reflexivity.
  - exact Hr.
  - rewrite Hpre, map_app, concat_app. simpl.
    rewrite <- !app_assoc. simpl. reflexivity.
Qed.

(** A window of white space only adds no chunk. *)
Lemma laid_out_skip (prefix l r : str) (chunks : list str) :
  laid_out prefix chunks ->
  whitespace_only l = true -> whitespace_only r = true ->
  laid_out (prefix ++ l ++ r) chunks.
Proof.
  intros [pairs [w [Hc [Hp [Hw Hpre]]]]] Hl Hr.
  exists pairs, (w ++ l ++ r). repeat split; try assumption.
  - rewrite !whitespace_only_app, Hw, Hl, Hr. reflexivity.
  - rewrite Hpre, <- !app_assoc. reflexivity.
Qed.

Lemma laid_out_window (prefix window : str) (chunks : list str) :
  laid_out prefix chunks ->
  laid_out (prefix ++ window) (append_if_nonempty chunks (strip window)).
Proof.
  intros H. destruct (strip_split window) as [l [r [Hl [Hr Hw]]]].
  rewrite Hw at 1. destruct (strip window) as [|c s] eqn:E.
  - simpl. apply laid_out_skip; assumption.
  - cbn [append_if_nonempty]. apply laid_out_snoc; assumption.
Qed.

Lemma laid_out_last (prefix window : str) (chunks : list str) :
  laid_out prefix chunks ->
  laid_out (prefix ++ window) (chunks ++ [strip window]).
Proof.
  intros H. destruct (strip_split window) as [l [r [Hl [Hr Hw]]]].
  rewrite Hw at 1. apply laid_out_snoc; assumption.
Qed.

Lemma interleave_pairs (pairs : list (str * str)) (w : str) :
  interleave (map fst pairs ++ [w]) (map snd pairs)
  = concat (map (fun p => fst p ++ snd p) pairs) ++ w.
Proof.
  induction pairs as [|[a c] pairs IH]; simpl; [reflexivity|].
  rewrite IH, <- !app_assoc. reflexivity.
Qed.

Lemma laid_out_interleave (text : str) (chunks : list str) :
  laid_out text chunks ->
  exists ws, length ws = S (length chunks)
             /\ Forall (fun w => whitespace_only w = true) ws
             /\ text = interleave ws chunks.
Proof.
  intros [pairs [w [Hc [Hp [Hw Ht]]]]].
  exists (map fst pairs ++ [w]). repeat split.
  - rewrite Hc, length_app, !length_map. simpl. lia.
  - apply Forall_app. split.
    + apply Forall_map. exact Hp.
    + constructor; [exact Hw | constructor].
  - rewrite Hc, interleave_pairs. exact Ht.
Qed.

Lemma chunk_text_laid_out (text : str) (chunk_size : Z) :
  0 < chunk_size -> laid_out text (chunk_text text chunk_size).
Proof.
  intros Hc.
  apply chunk_text_invariant with
    (I := fun start chunks =>
            0 <= start <= len text
            /\ laid_out (firstn (Z.to_nat start) text) chunks).
  - split; [pose proof (len_nonneg text); lia|]. apply laid_out_nil.
  - intros start chunks [Hs Hl] Hlt. unfold loop_body.
    destruct (len text <=? start + chunk_size) eqn:E.
    + rewrite slice_from_inside by lia.
      rewrite <- (firstn_skipn (Z.to_nat start) text) at 1.
      apply laid_out_last. exact Hl.
    + apply Z.leb_gt in E.
      pose proof (adjusted_end_bounds text chunk_size start
                    Hc ltac:(lia) ltac:(lia)) as Hb.
      rewrite Z.max_r by lia. split; [lia|].
      rewrite (firstn_slice text start) by lia.
      apply laid_out_window. exact Hl.
  - intros start chunks [Hs Hl] Hge.
    rewrite firstn_all2 in Hl by (unfold len in *; lia). exact Hl.
Qed.

(** C1: for every text and every chunk_size > 0 the chunks returned by
    chunk_text rebuild the text exactly and in order: there are strings
    w0 ... wN of white space only, one more than there are chunks, with
    text = w0 ++ c0 ++ w1 ++ c1 ++ ... ++ c(N-1) ++ wN. *)
Theorem chunk_text_reconstructs (text : str) (chunk_size : Z) :
  0 < chunk_size ->
  exists ws : list str,
    length ws = S (length (chunk_text text chunk_size))
    /\ Forall (fun w => whitespace_only w = true) ws
    /\ text = interleave ws (chunk_text text chunk_size).
Proof.
  intros Hc. apply laid_out_interleave. apply chunk_text_laid_out. exact Hc.
Qed.

Lemma chunk_text_reconstructs_witness :
  0 < 10 /\
  exists ws : list str,
    length ws = S (length (chunk_text (lit " ab. cdefghij  klm ") 10))
    /\ Forall (fun w => whitespace_only w = true) ws
    /\ lit " ab. cdefghij  klm "
       = interleave ws (chunk_text (lit " ab. cdefghij  klm ") 10).
Proof.
  split; [lia|].
  apply (chunk_text_reconstructs (lit " ab. cdefghij  klm ") 10). lia.
Defined.

(** * Size of the chunks *)

Lemma Forall_append_if_nonempty (P : str -> Prop) (chunks : list str)
  (chunk : str) :
  Forall P chunks -> P chunk -> Forall P (append_if_nonempty chunks chunk).
Proof.
  intros Hc Hp. destruct chunk; simpl; [exact Hc|].
  apply Forall_app. split; [exact Hc | constructor; [exact Hp | constructor]].
Qed.

(** C10: for every text and every chunk_size > 0, every string returned
    by chunk_text, the final remainder included, has at most chunk_size
    characters. *)
Theorem chunk_text_size_bound (text : str) (chunk_size : Z) :
  0 < chunk_size ->
  Forall (fun chunk => len chunk <= chunk_size) (chunk_text text chunk_size).
Proof.
  intros Hc.
  apply chunk_text_invariant with
    (I := fun start chunks =>
            0 <= start /\ Forall (fun chunk => len chunk <= chunk_size) chunks).
  - split; [lia | constructor].
  - intros start chunks [Hs Hf] Hlt. unfold loop_body.
    destruct (len text <=? start + chunk_size) eqn:E.
    + apply Z.leb_le in E. apply Forall_app. split; [exact Hf|].
      constructor; [|constructor].
      rewrite slice_from_inside by lia.
      pose proof (strip_len (skipn (Z.to_nat start) text)) as Hl.
      unfold len in *. rewrite length_skipn in Hl. lia.
    + apply Z.leb_gt in E.
      pose proof (adjusted_end_bounds text chunk_size start
                    Hc ltac:(lia) ltac:(lia)) as Hb.
      split; [lia|]. apply Forall_append_if_nonempty; [exact Hf|].
      pose proof (strip_len
                    (slice text start (adjusted_end text chunk_size start)))
        as Hl.
      rewrite slice_len in Hl by lia. lia.
  - intros start chunks [_ Hf] _. exact Hf.
Qed.

Lemma chunk_text_size_bound_witness :
  0 < 10 /\
  Forall (fun chunk => len chunk <= 10)
    (chunk_text (lit " ab. cdefghij  klm ") 10).
Proof.
  split; [lia|].
  apply (chunk_text_size_bound (lit " ab. cdefghij  klm ") 10). lia.
Defined.

(** * Termination *)

(** C9: chunk_text terminates.  A pass that stays in the loop moves start
    to max(start + 1, adjusted end), which is strictly larger; a pass whose
    candidate end reaches or passes the end of the text leaves the loop
    after appending the trimmed remainder; with start at or past the end of
    the text the loop is over; and so one pass per remaining character is
    enough for the loop to end with a result, which is what chunk_text
    returns.  None of this needs chunk_size > 0. *)
Theorem chunk_text_terminates (text : str) (chunk_size : Z) :
  (forall start chunks,
     start + chunk_size < len text ->
     loop_body text chunk_size start chunks
     = Continue (Z.max (start + 1) (adjusted_end text chunk_size start))
         (append_if_nonempty chunks
            (strip (slice text start (adjusted_end text chunk_size start))))
     /\ start < Z.max (start + 1) (adjusted_end text chunk_size start))
  /\ (forall start chunks,
        len text <= start + chunk_size ->
        loop_body text chunk_size start chunks
        = Break (chunks ++ [strip (slice_from text start)]))
  /\ (forall fuel start chunks,
        len text <= start ->
        chunk_loop fuel text chunk_size start chunks = Some chunks)
  /\ (forall fuel start chunks,
        len text - start <= Z.of_nat fuel ->
        exists r, chunk_loop fuel text chunk_size start chunks = Some r)
  /\ (forall fuel,
        (length text <= fuel)%nat ->
        chunk_loop fuel text chunk_size 0 [] = Some (chunk_text text chunk_size)).
Proof.
  split; [|split; [|split; [|split]]].
  - intros start chunks H. split; [|lia].
    unfold loop_body. apply Z.leb_gt in H. rewrite H. reflexivity.
  - intros start chunks H. unfold loop_body. apply Z.leb_le in H.
    rewrite H. reflexivity.
  - intros fuel start chunks H. apply Z.ltb_ge in H.
    destruct fuel; simpl; rewrite H; reflexivity.
  - intros fuel start chunks H. apply chunk_loop_enough_fuel. exact H.
  - intros fuel H.
    apply (chunk_loop_more_fuel text chunk_size (length text)); [exact H|].
    apply chunk_text_run.
Qed.

Lemma chunk_text_terminates_witness :
  exists r, chunk_loop 18 (lit "abcd. efghijklmnop") 10 0 [] = Some r.
Proof.
  apply (chunk_text_terminates (lit "abcd. efghijklmnop") 10).
  vm_compute. intros H. discriminate H.
Defined.

(** * The final remainder is appended without the emptiness test *)

(** C3: the text made of one space, with the default chunk size, comes
    back as one chunk, the empty string: line 45 appends the trimmed
    remainder without the test that line 62 applies to the other chunks. *)
Theorem chunk_text_returns_empty_chunk :
  chunk_text (lit " ") default_chunk_size = [[]].
Proof. vm_compute. reflexivity. Qed.

(** The same after a full chunk: trailing white space yields an empty
    last chunk. *)
Example chunk_text_trailing_space :
  chunk_text (lit "abcde ") 5 = [lit "abcde"; []].
Proof. vm_compute. reflexivity. Qed.

Lemma append_if_nonempty_nonempty (chunks : list str) (chunk : str) :
  Forall (fun c : str => c <> []) chunks ->
  Forall (fun c : str => c <> []) (append_if_nonempty chunks chunk).
Proof.
  intros Hf. destruct chunk as [|c chunk]; simpl; [exact Hf|].
  apply Forall_app. split; [exact Hf|].
  constructor; [discriminate | constructor].
Qed.

Lemma Forall_removelast {A : Type} (P : A -> Prop) (l : list A) :
  Forall P l -> Forall P (removelast l).
Proof.
  induction 1 as [|x l Hx Hl IH]; simpl; [constructor|].
  destruct l; [constructor|]. constructor; assumption.
Qed.

(** Every chunk but the last one returned is non-empty: only the
    remainder of line 45 escapes the test. *)
Lemma chunk_text_nonempty_but_last (text : str) (chunk_size : Z) :
  Forall (fun chunk => chunk <> []) (removelast (chunk_text text chunk_size)).
Proof.
  apply chunk_text_invariant with
    (I := fun (_ : Z) chunks => Forall (fun chunk : str => chunk <> []) chunks).
  - constructor.
  - intros start chunks Hf _. unfold loop_body.
    destruct (len text <=? start + chunk_size).
    + rewrite removelast_last. exact Hf.
    + apply append_if_nonempty_nonempty. exact Hf.
  - intros start chunks Hf _. apply Forall_removelast. exact Hf.
Qed.

(** * The worked example: twelve thousand letters *)

(** C8: chunk_text on "A" * 12000 with the default chunk size returns
    three chunks, of 5000, 5000 and 2000 characters; the text holds no
    code fence, no blank line and no ". ", so the two cuts fall on the raw
    window boundaries 5000 and 10000 and the third chunk is the remainder. *)
Theorem chunk_text_twelve_thousand :
  chunk_text (times_A 12000) default_chunk_size
  = [times_A 5000; times_A 5000; times_A 2000]
  /\ map len (chunk_text (times_A 12000) default_chunk_size)
     = [5000; 5000; 2000]
  /\ contains fence (times_A 12000) = false
  /\ contains blank_line (times_A 12000) = false
  /\ contains period_space (times_A 12000) = false
  /\ adjusted_end (times_A 12000) default_chunk_size 0
     = 0 + default_chunk_size
  /\ adjusted_end (times_A 12000) default_chunk_size 5000
     = 5000 + default_chunk_size
  /\ len (times_A 12000) <= 10000 + default_chunk_size.
Proof.
  repeat (split; [vm_compute; reflexivity|]).
  vm_compute. intros H. discriminate H.
Qed.

(** * Which cut rule applies *)

(** Occurrences in a concrete window, settled by running [rfind]. *)
Ltac occurs_here :=
  unfold occurs_at; vm_compute; repeat split; intros ?H; discriminate.

Ltac no_occurrence H :=
  exfalso;
  match type of H with
  | occurs_at ?sub ?s ?i =>
      destruct (rfind_spec s sub) as [[_ ?Hn] | [[?H0 _] _]];
      [exact (Hn i H) | vm_compute in H0; apply H0; reflexivity]
  end.

Ltac only_occurrence_is H k :=
  match type of H with
  | occurs_at ?sub ?s ?i =>
      let Hmax := fresh "Hmax" in
      destruct (rfind_spec s sub) as [[_ ?Hn] | [_ Hmax]];
      [exfalso; exact (Hn i H) |
       specialize (Hmax i H); destruct H as [?H0 _];
       change (rfind s sub) with k in Hmax;
       assert (i = k) by lia; subst i]
  end.

Lemma above_30_mono (i j chunk_size : Z) :
  i <= j -> above_30 i chunk_size = true -> above_30 j chunk_size = true.
Proof.
  unfold above_30. intros Hij H. apply Z.ltb_lt in H. apply Z.ltb_lt. lia.
Qed.

(** C4, as the code has it: in a pass that reaches line 48, when no code
    fence of the window lies strictly after 30% of chunk_size, the window
    holds no blank line at all, and some ". " of the window lies strictly
    after 30% of chunk_size, the cut is made just after the last ". ". *)
Theorem sentence_rule_without_blank_line (text : str) (chunk_size start : Z) :
  start + chunk_size < len text ->
  (forall i, occurs_at fence (window text chunk_size start) i ->
             above_30 i chunk_size = false) ->
  (forall i, ~ occurs_at blank_line (window text chunk_size start) i) ->
  (exists i, occurs_at period_space (window text chunk_size start) i
             /\ above_30 i chunk_size = true) ->
  cuts_after_last_period text chunk_size start.
Proof.
  intros Hlen Hfence Hblank [i [Hi Hi30]].
  assert (Hadj : adjusted_end text chunk_size start
                 = start + rfind (window text chunk_size start) period_space + 1
                 /\ last_occurrence period_space (window text chunk_size start)
                      (rfind (window text chunk_size start) period_space)).
  { unfold adjusted_end. fold (window text chunk_size start).
    set (w := window text chunk_size start) in *.
    assert (E1 : negb (rfind w fence =? -1)
                 && above_30 (rfind w fence) chunk_size = false).
    { destruct (rfind_spec w fence) as [[Hn _] | [Ho _]].
      - rewrite Hn. reflexivity.
      - rewrite (Hfence _ Ho). apply andb_false_r. }
    rewrite E1.
    assert (E2 : contains blank_line w = false).
    { rewrite contains_rfind.
      destruct (rfind_spec w blank_line) as [[Hn _] | [Ho _]].
      - rewrite Hn. reflexivity.
      - exfalso. exact (Hblank _ Ho). }
    rewrite E2.
    destruct (rfind_spec w period_space) as [[_ Hn] | [Ho Hmax]].
    - exfalso. exact (Hn i Hi).
    - assert (E3 : contains period_space w = true).
      { rewrite contains_rfind. apply Z.leb_le. destruct Ho as [H0 _]. exact H0. }
      rewrite E3.
      rewrite (above_30_mono i _ chunk_size (Hmax i Hi) Hi30).
      split; [reflexivity|]. split; assumption. }
  destruct Hadj as [Hadj Hlast].
  exists (rfind (window text chunk_size start) period_space).
  split; [exact Hlast|]. split; [exact Hadj|].
  intros chunks. unfold loop_body.
  assert (E : (len text <=? start + chunk_size) = false)
    by (apply Z.leb_gt; lia).
  rewrite E, Hadj. destruct Hlast as [[H0 _] _].
  rewrite Z.max_r by lia. reflexivity.
Qed.

(** A "```" at the very start of the window fails its 30% test and the
    sentence rule is reached. *)
Lemma sentence_rule_without_blank_line_witness :
  0 + 10 < len (lit "```d. efghijklmnop")
  /\ cuts_after_last_period (lit "```d. efghijklmnop") 10 0.
Proof.
  split; [reflexivity|].
  apply (sentence_rule_without_blank_line (lit "```d. efghijklmnop") 10 0).
  - reflexivity.
  - intros i Hi. only_occurrence_is Hi 0. reflexivity.
  - intros i Hi. no_occurrence Hi.
  - exists 4. split; [occurs_here | reflexivity].
Defined.

Example chunk_text_after_fence :
  chunk_text (lit "```d. efghijklmnop") 10
  = [lit "```d."; lit "efghijklm"; lit "nop"].
Proof. vm_compute. reflexivity. Qed.

(** C4 as stated fails: in the window of "\n\nab. cdefghijkl" with
    chunk_size 10 there is no code fence, the only blank line is at index
    0, not after 30%, and ". " occurs at index 4, after 30%; yet the
    [elif] of line 52 is entered, the sentence rule is never tried, and the
    cut stays at the raw boundary 10. *)
Lemma sentence_rule_blocked_by_early_blank_line :
  let text := (blank_line ++ lit "ab. cdefghijkl") in
  0 + 10 < len text
  /\ (forall i, occurs_at fence (window text 10 0) i -> above_30 i 10 = false)
  /\ (forall i, occurs_at blank_line (window text 10 0) i ->
                above_30 i 10 = false)
  /\ (exists i, occurs_at period_space (window text 10 0) i
                /\ above_30 i 10 = true)
  /\ adjusted_end text 10 0 = 0 + 10
  /\ chunk_text text 10 = [lit "ab. cdef"; lit "ghijkl"]
  /\ ~ cuts_after_last_period text 10 0.
Proof.
  intros text. split; [reflexivity|].
  split; [|split; [|split; [|split; [|split]]]].
  - intros i Hi. no_occurrence Hi.
  - intros i Hi. only_occurrence_is Hi 0. reflexivity.
  - exists 4. split; [occurs_here | reflexivity].
  - reflexivity.
  - vm_compute. reflexivity.
  - intros [p [[[H0 [_ Hp]] _] [Hadj _]]].
    change (adjusted_end text 10 0) with 10 in Hadj.
    change (len (window text 10 0)) with 10 in Hp.
    change (len period_space) with 2 in Hp. lia.
Qed.

(** * The enricher *)

(** C2: process_chunk raises to its caller.  When the provider answers
    the title/summary request with a JSON object that lacks the 'title' key
    (or has it and lacks 'summary'), get_title_and_summary returns that
    object and the look-up in process_chunk raises KeyError; when the answer
    is JSON but not an object, the look-up raises TypeError. *)
Theorem process_chunk_raises_on_missing_key :
  process_chunk keyless_world (lit "hello") 0 docs_url
  = Raise (KeyError (lit "title"))
  /\ process_chunk
       (world_with (ContentJson (VDict [(lit "title", VStr (lit "Intro"))]))
          (Ok [VInt 1]))
       (lit "hello") 0 docs_url
     = Raise (KeyError (lit "summary"))
  /\ process_chunk (world_with (ContentJson (VList [])) (Ok [VInt 1]))
       (lit "hello") 0 docs_url
     = Raise TypeError.
Proof. repeat split; reflexivity. Qed.

(** With both keys in the answer process_chunk returns its record. *)
Example process_chunk_returns :
  process_chunk answering_world (lit "hello") 0 docs_url = Ok hello_chunk.
Proof. reflexivity. Qed.

(** In general: the value that json.loads returned reaches the look-ups
    of process_chunk unchecked, and a failing look-up is what process_chunk
    raises. *)
Lemma process_chunk_lookup_raises (w : World) (c : str) (n : Z) (u path : str)
  (v : value) (e : exn) :
  (forall system user, chat_completions_create w system user = ContentJson v) ->
  urlparse_path w u = Ok path ->
  getitem v (lit "title") = Raise e ->
  process_chunk w c n u = Raise e.
Proof.
  intros Hchat Hurl Hget. unfold process_chunk, get_title_and_summary.
  rewrite Hchat, Hurl. cbn [bind]. rewrite Hget. reflexivity.
Qed.

(** The failures that get_title_and_summary does catch. *)
Lemma get_title_and_summary_caught (w : World) (chunk url : str) :
  (forall system user,
     chat_completions_create w system user = CallRaises
     \/ chat_completions_create w system user = ContentNotJson) ->
  get_title_and_summary w chunk url = error_title_and_summary.
Proof.
  intros H. unfold get_title_and_summary.
  destruct (H system_prompt
              (lit "URL: " ++ url ++ newline ++ newline ++ lit "Content:"
               ++ newline ++ slice chunk 0 1000 ++ lit "..."))
    as [-> | ->]; reflexivity.
Qed.

(** What a record returned by process_chunk holds of its arguments. *)
Lemma process_chunk_fields (w : World) (c : str) (n : Z) (u : str)
  (r : ProcessedChunk) :
  process_chunk w c n u = Ok r ->
  url r = u /\ chunk_number r = n /\ content r = c
  /\ embedding r = get_embedding w c.
Proof.
  unfold process_chunk. intros H.
  destruct (urlparse_path w u); [|discriminate].
  cbn [bind] in H.
  destruct (getitem _ (lit "title")); [|discriminate].
  destruct (getitem _ (lit "summary")); [|discriminate].
  cbn [bind] in H. injection H as <-. repeat split.
Qed.




(** * The document pipeline *)

Lemma enriched_numbers_app (a b : list event) :
  enriched_numbers (a ++ b) = enriched_numbers a ++ enriched_numbers b.
Proof.
  induction a as [|[c i u | c] a IH]; simpl; [reflexivity | |];
    rewrite IH; reflexivity.
Qed.

Lemma stored_numbers_app (a b : list event) :
  stored_numbers (a ++ b) = stored_numbers a ++ stored_numbers b.
Proof.
  induction a as [|[c i u | c] a IH]; simpl; [reflexivity | |];
    rewrite IH; reflexivity.
Qed.

(** The calls of the enrichment phase. *)
Lemma enrich_calls (w : World) (url : str) (ics : list (Z * str)) :
  enriched_numbers (concat (map fst (map (process_chunk_task w url) ics)))
  = map fst ics
  /\ stored_numbers (concat (map fst (map (process_chunk_task w url) ics)))
     = [].
Proof.
  induction ics as [|[i c] ics [IH1 IH2]]; simpl; [split; reflexivity|].
  rewrite IH1, IH2. split; reflexivity.
Qed.

(** The calls of the storage phase. *)
Lemma store_calls (w : World) (chunks : list ProcessedChunk) :
  enriched_numbers (concat (map fst (map (insert_chunk_task w) chunks))) = []
  /\ stored_numbers (concat (map fst (map (insert_chunk_task w) chunks)))
     = map chunk_number chunks
  /\ exists vs, all_ok (map snd (map (insert_chunk_task w) chunks)) = Ok vs.
Proof.
  induction chunks as [|c chunks [IH1 [IH2 [vs IH3]]]]; simpl.
  - repeat split. eexists. reflexivity.
  - rewrite IH1, IH2, IH3. repeat split. eexists. reflexivity.
Qed.

Lemma combine_fst {A B : Type} (l : list A) (ns : list B) :
  length ns = length l -> map fst (combine ns l) = ns.
Proof.
  revert ns. induction l as [|a l IH]; intros [|n ns] Hn; simpl in *;
    try reflexivity; try discriminate.
  f_equal. apply IH. lia.
Qed.

Lemma enumerate_fst {A : Type} (l : list A) :
  map fst (enumerate l) = indices (length l).
Proof.
  unfold enumerate, indices. apply combine_fst.
  rewrite length_map, length_seq. reflexivity.
Qed.

(** When every task returns, [gather] returns the results in order. *)
Lemma all_ok_process_chunks (w : World) (u : str) (ics : list (Z * str)) :
  (forall i c, In (i, c) ics -> exists r, process_chunk w c i u = Ok r) ->
  exists rs,
    all_ok (map snd (map (process_chunk_task w u) ics)) = Ok rs
    /\ map chunk_number rs = map fst ics.
Proof.
  induction ics as [|[i c] ics IH]; intros H.
  - exists []. split; reflexivity.
  - destruct (H i c (or_introl eq_refl)) as [r Hr].
    destruct IH as [rs [Hrs Hn]].
    { intros j d Hin. apply (H j d). right. exact Hin. }
    exists (r :: rs). cbn [map snd fst process_chunk_task all_ok].
    rewrite Hr. cbn [bind]. rewrite Hrs. cbn [bind]. split; [reflexivity|].
    apply process_chunk_fields in Hr. destruct Hr as [_ [Hr _]].
    rewrite Hn, Hr. reflexivity.
Qed.

(** When no enricher call raises, a document of N chunks makes N calls
    to process_chunk and then N calls to insert_chunk, each with the chunk
    numbers 0 .. N-1 in order, and returns. *)
Lemma process_and_store_document_calls (w : World) (u markdown : str) :
  (forall i c, In (i, c) (enumerate (chunk_text markdown default_chunk_size)) ->
               exists r, process_chunk w c i u = Ok r) ->
  let n := length (chunk_text markdown default_chunk_size) in
  snd (process_and_store_document w u markdown) = Ok tt
  /\ enriched_numbers (fst (process_and_store_document w u markdown))
     = indices n
  /\ stored_numbers (fst (process_and_store_document w u markdown))
     = indices n.
Proof.
  intros H n. unfold process_and_store_document, gather.
  destruct (all_ok_process_chunks w u _ H) as [rs [Hrs Hn]].
  rewrite Hrs.
  destruct (store_calls w rs) as [Hs1 [Hs2 [vs Hs3]]].
  destruct (enrich_calls w u (enumerate (chunk_text markdown default_chunk_size)))
    as [He1 He2].
  rewrite Hs3. cbn [fst snd bind].
  rewrite enriched_numbers_app, stored_numbers_app, He1, He2, Hs1, Hs2.
  rewrite Hn, enumerate_fst, app_nil_r. repeat split.
Qed.

(** Whatever the provider does, process_chunk is called once per chunk,
    with the chunk numbers 0 .. N-1. *)
Lemma process_and_store_document_enriches (w : World) (u markdown : str) :
  enriched_numbers (fst (process_and_store_document w u markdown))
  = indices (length (chunk_text markdown default_chunk_size)).
Proof.
  unfold process_and_store_document, gather.
  destruct (enrich_calls w u (enumerate (chunk_text markdown default_chunk_size)))
    as [He _].
  destruct (all_ok _) as [rs | e]; cbn [fst].
  - destruct (store_calls w rs) as [Hs _].
    rewrite enriched_numbers_app, He, Hs, app_nil_r. apply enumerate_fst.
  - rewrite He. apply enumerate_fst.
Qed.

Example process_and_store_document_one_chunk :
  process_and_store_document answering_world docs_url (lit "hello")
  = ([ProcessChunkCalled (lit "hello") 0 docs_url;
      InsertChunkCalled hello_chunk], Ok tt).
Proof. vm_compute. reflexivity. Qed.

(** C5: a document of one chunk, with a provider that answers the
    title/summary request with a JSON object that has no 'title' key:
    chunk_text yields N = 1 chunk and process_chunk is called once, with
    chunk number 0, but its KeyError comes out of the first gather and
    insert_chunk is never called. *)
Theorem process_and_store_document_stops_on_key_error :
  length (chunk_text (lit "hello") default_chunk_size) = 1%nat
  /\ process_and_store_document keyless_world docs_url (lit "hello")
     = ([ProcessChunkCalled (lit "hello") 0 docs_url],
        Raise (KeyError (lit "title")))
  /\ enriched_numbers
       (fst (process_and_store_document keyless_world docs_url (lit "hello")))
     = [0]
  /\ stored_numbers
       (fst (process_and_store_document keyless_world docs_url (lit "hello")))
     = [].
Proof. repeat split; vm_compute; reflexivity. Qed.

(** * The crawl gate *)

Lemma count_nonneg (p : url_task -> bool) (l : list url_task) : 0 <= count p l.
Proof. induction l as [|t l IH]; simpl; [lia|]. destruct (p t); lia. Qed.

Lemma count_set_task (p : url_task -> bool) (l : list url_task) (i : nat)
  (old new : url_task) :
  nth_error l i = Some old ->
  count p (set_task i new l)
  = count p l - (if p old then 1 else 0) + (if p new then 1 else 0).
Proof.
  revert i. induction l as [|a l IH]; intros [|i] H; simpl in *;
    try discriminate.
  - injection H as ->. lia.
  - rewrite (IH i H). lia.
Qed.

Lemma in_flight_le_held (s : crawl_state) : in_flight s <= slots_held s.
Proof.
  unfold in_flight, slots_held.
  induction (url_tasks s) as [|t l IH]; cbn [count]; [lia|].
  destruct t; cbn [is_fetching holds_slot]; lia.
Qed.

Lemma gate_invariant_step (max_concurrent : Z) (s s' : crawl_state) (m : move) :
  gate_invariant max_concurrent s -> step s m = Some s' ->
  gate_invariant max_concurrent s'.
Proof.
  unfold gate_invariant, slots_held. intros [H0 H1] Hs.
  destruct m as [i | i | i | i | i | i]; simpl in Hs;
    destruct (nth_error (url_tasks s) i) as [[| | |]|] eqn:E;
    try discriminate;
    try (destruct (0 <? permits s) eqn:Ep; [apply Z.ltb_lt in Ep | discriminate]);
    injection Hs as <-; unfold leave; cbn [permits url_tasks];
    rewrite (count_set_task _ _ _ _ _ E); cbn [holds_slot]; lia.
Qed.

Lemma gate_invariant_start (urls : list str) (max_concurrent : Z)
  (s : crawl_state) :
  crawl_parallel_start urls max_concurrent = Ok s ->
  gate_invariant max_concurrent s /\ in_flight s = 0.
Proof.
  unfold crawl_parallel_start, Semaphore.
  destruct (max_concurrent <? 0) eqn:E; [discriminate|].
  apply Z.ltb_ge in E. simpl. intros H. injection H as <-.
  unfold gate_invariant, slots_held, in_flight. simpl.
  assert (Hc : forall p, p AtGate = false ->
                         count p (map (fun _ : str => AtGate) urls) = 0).
  { intros p Hp. induction urls as [|u urls IH]; simpl; [reflexivity|].
    rewrite Hp, IH. reflexivity. }
  rewrite !Hc by reflexivity. lia.
Qed.

Lemma gate_invariant_run (max_concurrent : Z) (moves : list move)
  (s s' : crawl_state) :
  gate_invariant max_concurrent s -> run s moves = Some s' ->
  gate_invariant max_concurrent s'.
Proof.
  revert s. induction moves as [|m moves IH]; intros s Hi Hr; simpl in Hr.
  - injection Hr as <-. exact Hi.
  - destruct (step s m) as [s1|] eqn:Es; [|discriminate].
    apply (IH s1); [|exact Hr]. eapply gate_invariant_step; eauto.
Qed.

Lemma nth_error_set_task_same (l : list url_task) (i : nat)
  (old new : url_task) :
  nth_error l i = Some old -> nth_error (set_task i new l) i = Some new.
Proof.
  revert i. induction l as [|a l IH]; intros [|i] H; simpl in *;
    try discriminate; [reflexivity | exact (IH i H)].
Qed.

Lemma nth_error_set_task_other (l : list url_task) (i j : nat)
  (new : url_task) :
  i <> j -> nth_error (set_task j new l) i = nth_error l i.
Proof.
  revert i j. induction l as [|a l IH]; intros [|i] [|j] H; simpl;
    try reflexivity; [lia | apply IH; lia].
Qed.

(** A move that leaves the counter alone finishes no task that held a
    slot. *)
Lemma set_task_not_released (l : list url_task) (i j : nat)
  (old new t : url_task) :
  nth_error l j = Some old -> holds_slot old = false \/ new <> Finished ->
  nth_error l i = Some t -> holds_slot t = true ->
  nth_error (set_task j new l) i = Some Finished -> False.
Proof.
  intros Hj Hon Hi Ht Hf. destruct (Nat.eq_dec i j) as [-> | Hne].
  - rewrite (nth_error_set_task_same _ _ _ _ Hj) in Hf.
    injection Hf as ->. rewrite Hj in Hi. injection Hi as ->.
    destruct Hon as [Ho | Hn]; [congruence | apply Hn; reflexivity].
  - rewrite (nth_error_set_task_other _ _ _ _ Hne), Hi in Hf.
    injection Hf as ->. discriminate Ht.
Qed.

(** Only entering the gate starts a fetch. *)
Lemma in_flight_grows_by_acquire (s s' : crawl_state) (m : move) :
  step s m = Some s' -> in_flight s < in_flight s' -> exists i, m = Acquire i.
Proof.
  intros Hs Hlt. destruct m as [j | j | j | j | j | j];
    [exists j; reflexivity | exfalso ..]; simpl in Hs;
    destruct (nth_error (url_tasks s) j) as [[| | |]|] eqn:Ej;
    try discriminate; injection Hs as <-;
    unfold in_flight, leave in Hlt; cbn [url_tasks] in Hlt;
    rewrite (count_set_task _ _ _ _ _ Ej) in Hlt; cbn [is_fetching] in Hlt;
    lia.
Qed.

(** Leaving the gate: the task is finished, the counter is one higher
    and one slot fewer is held. *)
Lemma leave_releases (s : crawl_state) (i : nat) (t : url_task) :
  nth_error (url_tasks s) i = Some t -> holds_slot t = true ->
  nth_error (url_tasks (leave s i)) i = Some Finished
  /\ permits (leave s i) = permits s + 1
  /\ slots_held (leave s i) = slots_held s - 1.
Proof.
  intros Hi Hh. unfold leave, slots_held. cbn [url_tasks permits].
  split; [exact (nth_error_set_task_same _ _ _ _ Hi)|].
  split; [reflexivity|].
  rewrite (count_set_task _ _ _ _ _ Hi), Hh. cbn [holds_slot]. lia.
Qed.

(** C7: for every URL list and every max_concurrent > 0 the crawl starts,
    and in every state the event loop can reach: at most max_concurrent
    fetches are in flight (indeed at most max_concurrent tasks are inside
    the gate); a fetch begins only by a task entering the gate, which
    happens only when fewer than max_concurrent fetches are in flight; a
    task whose fetch is in flight gives its slot back when the fetch
    reports failure and when it raises, and keeps it on success through the
    document pipeline, at whose end, normal or not, it gives it back; and
    these are the only ways for a task inside the gate to finish: whenever
    one finishes, the counter goes up by one. *)
Theorem crawl_parallel_bounded (urls : list str) (max_concurrent : Z) :
  0 < max_concurrent ->
  exists s0,
    crawl_parallel_start urls max_concurrent = Ok s0
    /\ forall moves s,
         run s0 moves = Some s ->
         in_flight s <= max_concurrent
         /\ slots_held s <= max_concurrent
         /\ (forall m s', step s m = Some s' -> in_flight s < in_flight s' ->
                          exists i, m = Acquire i)
         /\ (forall i s', step s (Acquire i) = Some s' ->
                          in_flight s < max_concurrent
                          /\ in_flight s' = in_flight s + 1)
         /\ (forall i, nth_error (url_tasks s) i = Some Fetching ->
                       ends_and_releases s (FetchFailed i) i
                       /\ ends_and_releases s (FetchRaised i) i
                       /\ exists s',
                            step s (FetchSucceeded i) = Some s'
                            /\ nth_error (url_tasks s') i = Some Storing
                            /\ permits s' = permits s)
         /\ (forall i, nth_error (url_tasks s) i = Some Storing ->
                       ends_and_releases s (DocumentDone i) i)
         /\ (forall m i s' t,
               step s m = Some s' ->
               nth_error (url_tasks s) i = Some t -> holds_slot t = true ->
               nth_error (url_tasks s') i = Some Finished ->
               permits s' = permits s + 1).
Proof.
  intros Hmax. unfold crawl_parallel_start, Semaphore.
  destruct (max_concurrent <? 0) eqn:E; [apply Z.ltb_lt in E; lia|].
  eexists. split; [reflexivity|]. intros moves s Hrun.
  assert (Hinv : gate_invariant max_concurrent s).
  { eapply gate_invariant_run; [|exact Hrun].
    apply (gate_invariant_start urls).
    unfold crawl_parallel_start, Semaphore. rewrite E. reflexivity. }
  pose proof (in_flight_le_held s) as Hle.
  destruct Hinv as [H0 H1].
  split; [lia|]. split; [lia|]. split; [|split; [|split; [|split]]].
  - intros m s'. apply in_flight_grows_by_acquire.
  - intros i s' Hs. simpl in Hs.
    destruct (nth_error (url_tasks s) i) as [[| | |]|] eqn:Ei;
      try discriminate.
    destruct (0 <? permits s) eqn:Ep; [|discriminate].
    apply Z.ltb_lt in Ep. injection Hs as <-. split; [lia|].
    unfold in_flight. cbn [url_tasks].
    rewrite (count_set_task _ _ _ _ _ Ei). cbn [is_fetching]. lia.
  - intros i Hi.
    pose proof (leave_releases s i Fetching Hi eq_refl) as Hl.
    split; [|split].
    + exists (leave s i). split; [|exact Hl]. simpl. rewrite Hi. reflexivity.
    + exists (leave s i). split; [|exact Hl]. simpl. rewrite Hi. reflexivity.
    + eexists. split; [simpl; rewrite Hi; reflexivity|].
      cbn [url_tasks permits].
      split; [exact (nth_error_set_task_same _ _ _ _ Hi) | reflexivity].
  - intros i Hi.
    pose proof (leave_releases s i Storing Hi eq_refl) as Hl.
    exists (leave s i). split; [|exact Hl]. simpl. rewrite Hi. reflexivity.
  - intros m i s' t Hs Ht Hh Hf.
    destruct m as [j | j | j | j | j | j]; simpl in Hs;
      destruct (nth_error (url_tasks s) j) as [[| | |]|] eqn:Ej;
      try discriminate;
      try (destruct (0 <? permits s); [|discriminate]);
      injection Hs as <-; try reflexivity; cbn [url_tasks] in Hf; exfalso;
      eapply (set_task_not_released _ i j _ _ t Ej); eauto;
      solve [left; reflexivity | right; discriminate].
Qed.

Lemma crawl_parallel_bounded_witness :
  0 < 2 /\
  exists s0,
    crawl_parallel_start three_urls 2 = Ok s0
    /\ forall moves s,
         run s0 moves = Some s ->
         in_flight s <= 2
         /\ slots_held s <= 2
         /\ (forall m s', step s m = Some s' -> in_flight s < in_flight s' ->
                          exists i, m = Acquire i)
         /\ (forall i s', step s (Acquire i) = Some s' ->
                          in_flight s < 2 /\ in_flight s' = in_flight s + 1)
         /\ (forall i, nth_error (url_tasks s) i = Some Fetching ->
                       ends_and_releases s (FetchFailed i) i
                       /\ ends_and_releases s (FetchRaised i) i
                       /\ exists s',
                            step s (FetchSucceeded i) = Some s'
                            /\ nth_error (url_tasks s') i = Some Storing
                            /\ permits s' = permits s)
         /\ (forall i, nth_error (url_tasks s) i = Some Storing ->
                       ends_and_releases s (DocumentDone i) i)
         /\ (forall m i s' t,
               step s m = Some s' ->
               nth_error (url_tasks s) i = Some t -> holds_slot t = true ->
               nth_error (url_tasks s') i = Some Finished ->
               permits s' = permits s + 1).
Proof. split; [lia|]. apply (crawl_parallel_bounded three_urls 2). lia. Defined.

(** A schedule of three URLs through a gate of two, and the refusal of a
    third admission while two tasks are inside. *)
Example crawl_three_urls :
  run {| permits := 2; url_tasks := [AtGate; AtGate; AtGate] |}
    [Acquire 0; Acquire 2; FetchFailed 2; Acquire 1; FetchSucceeded 0;
     DocumentDone 0; FetchRaised 1]%nat
  = Some {| permits := 2; url_tasks := [Finished; Finished; Finished] |}
  /\ run {| permits := 2; url_tasks := [AtGate; AtGate; AtGate] |}
       [Acquire 0; Acquire 2; Acquire 1]%nat
     = None.
Proof. split; reflexivity. Qed.

(** * More on the chunker *)

Lemma lstrip_whitespace_only (s : str) :
  whitespace_only s = true -> lstrip s = [].
Proof.
  induction s as [|c s IH]; simpl; [reflexivity|].
  intros H. apply andb_prop in H. destruct H as [Hc Hs].
  rewrite Hc. exact (IH Hs).
Qed.

Lemma strip_whitespace_only (s : str) :
  whitespace_only s = true -> strip s = [].
Proof.
  intros H. unfold strip. rewrite (lstrip_whitespace_only s H). reflexivity.
Qed.

(** The single pass over a text that fits in one window. *)
Lemma chunk_text_one_window (c : char) (text : str) (chunk_size : Z) :
  len (c :: text) <= chunk_size ->
  chunk_text (c :: text) chunk_size = [strip (c :: text)].
Proof.
  intros Hle.
  pose proof (chunk_text_run (c :: text) chunk_size) as Hrun.
  cbn [length chunk_loop] in Hrun.
  assert (E1 : (0 <? len (c :: text)) = true).
  { apply Z.ltb_lt. unfold len. simpl. lia. }
  rewrite E1 in Hrun. unfold loop_body in Hrun.
  assert (E2 : (len (c :: text) <=? 0 + chunk_size) = true)
    by (apply Z.leb_le; lia).
  rewrite E2 in Hrun. rewrite slice_from_inside in Hrun by lia.
  injection Hrun as <-. reflexivity.
Qed.

(** A text that fits in one window is never cut: no text gives no chunk,
    and any other text comes back as one chunk, the trimmed text, whatever
    fences, blank lines or sentences it holds. *)
Theorem chunk_text_short (text : str) (chunk_size : Z) :
  len text <= chunk_size ->
  chunk_text text chunk_size
  = match text with
    | [] => []
    | _ :: _ => [strip text]
    end.
Proof.
  intros Hle. destruct text as [|c text].
  - reflexivity.
  - apply chunk_text_one_window. exact Hle.
Qed.

Lemma chunk_text_short_witness :
  len (lit "  Intro. Next.

``` ") <= 5000
  /\ chunk_text (lit "  Intro. Next.

``` ") 5000
     = [lit "Intro. Next.

```"].
Proof.
  split; [vm_compute; intros H; discriminate H|].
  apply (chunk_text_short (lit "  Intro. Next.

``` ") 5000).
  vm_compute. intros H. discriminate H.
Defined.

(** A text of white space only, short enough for one window, comes back
    as one empty chunk. *)
Lemma chunk_text_blank (text : str) (chunk_size : Z) :
  text <> [] -> whitespace_only text = true -> len text <= chunk_size ->
  chunk_text text chunk_size = [[]].
Proof.
  intros Hne Hws Hle. destruct text as [|c text]; [contradiction|].
  rewrite (chunk_text_one_window c text chunk_size Hle).
  rewrite (strip_whitespace_only _ Hws). reflexivity.
Qed.

Lemma lstrip_no_leading_space (s : str) : no_leading_space (lstrip s).
Proof.
  induction s as [|c s IH]; simpl; [exact I|].
  destruct (isspace c) eqn:Hc; [exact IH | exact Hc].
Qed.

Lemma lstrip_fixed (s : str) : no_leading_space s -> lstrip s = s.
Proof. destruct s as [|c s]; simpl; [reflexivity|]. intros ->. reflexivity. Qed.

Lemma rstrip_no_leading_space (s : str) :
  no_leading_space s -> no_leading_space (rstrip s).
Proof.
  destruct s as [|c s]; [intros; exact I|]. cbn [rstrip no_leading_space].
  intros Hc. destruct (rstrip s); [rewrite Hc|]; exact Hc.
Qed.

Lemma rstrip_idempotent (s : str) : rstrip (rstrip s) = rstrip s.
Proof.
  induction s as [|c s IH]; [reflexivity|].
  cbn [rstrip]. destruct (rstrip s) as [|d r] eqn:E.
  - destruct (isspace c) eqn:Hc; [reflexivity|].
    cbn [rstrip]. rewrite Hc. reflexivity.
  - cbn [rstrip] in *. rewrite IH. reflexivity.
Qed.

(** What [strip] returns has no white space left at either end. *)
Lemma strip_trimmed (s : str) :
  lstrip (strip s) = strip s /\ rstrip (strip s) = strip s.
Proof.
  unfold strip. split.
  - apply lstrip_fixed, rstrip_no_leading_space, lstrip_no_leading_space.
  - apply rstrip_idempotent.
Qed.

(** Every chunk returned is trimmed: stripping it again, on the left or on
    the right, changes nothing.  This holds for every chunk size. *)
Theorem chunk_text_trimmed (text : str) (chunk_size : Z) :
  Forall (fun chunk => lstrip chunk = chunk /\ rstrip chunk = chunk
                       /\ strip chunk = chunk)
    (chunk_text text chunk_size).
Proof.
  assert (Hs : forall s, lstrip (strip s) = strip s
                         /\ rstrip (strip s) = strip s
                         /\ strip (strip s) = strip s).
  { intros s. destruct (strip_trimmed s) as [Hl Hr].
    split; [exact Hl|]. split; [exact Hr|].
    unfold strip at 1. rewrite Hl. exact Hr. }
  apply chunk_text_invariant with
    (I := fun (_ : Z) chunks =>
            Forall (fun chunk : str => lstrip chunk = chunk
                                       /\ rstrip chunk = chunk
                                       /\ strip chunk = chunk) chunks).
  - constructor.
  - intros start chunks Hf _. unfold loop_body.
    destruct (len text <=? start + chunk_size).
    + apply Forall_app. split; [exact Hf|].
      constructor; [apply Hs | constructor].
    + apply Forall_append_if_nonempty; [exact Hf | apply Hs].
  - intros start chunks Hf _. exact Hf.
Qed.

(** Whatever rule chooses it, the cut point lies more than 30% of
    chunk_size into the window. *)
Lemma adjusted_end_after_30 (text : str) (chunk_size start : Z) :
  0 < chunk_size ->
  3 * chunk_size < 10 * (adjusted_end text chunk_size start - start).
Proof.
  intros Hc. unfold adjusted_end.
  destruct (negb _ && above_30 _ chunk_size) eqn:E1.
  - apply andb_prop in E1. destruct E1 as [_ E1].
    unfold above_30 in E1. apply Z.ltb_lt in E1. lia.
  - clear E1. destruct (contains blank_line _).
    + destruct (above_30 _ chunk_size) eqn:E2; [|lia].
      unfold above_30 in E2. apply Z.ltb_lt in E2. lia.
    + destruct (contains period_space _); [|lia].
      destruct (above_30 _ chunk_size) eqn:E3; [|lia].
      unfold above_30 in E3. apply Z.ltb_lt in E3. lia.
Qed.

(** Every cut consumes more than 30% of a window: the pass that starts at
    [start] and stays in the loop restarts more than three tenths of
    chunk_size further on, and never past the window. *)
Theorem loop_body_consumes_30 (text : str) (chunk_size start start' : Z)
  (chunks chunks' : list str) :
  0 < chunk_size -> 0 <= start ->
  loop_body text chunk_size start chunks = Continue start' chunks' ->
  3 * chunk_size < 10 * (start' - start) /\ start' <= start + chunk_size.
Proof.
  intros Hc Hs. unfold loop_body.
  destruct (len text <=? start + chunk_size) eqn:E; [discriminate|].
  apply Z.leb_gt in E. intros H. injection H as <- _.
  pose proof (adjusted_end_bounds text chunk_size start
                Hc Hs ltac:(lia)) as Hb.
  pose proof (adjusted_end_after_30 text chunk_size start Hc) as H30.
  rewrite Z.max_r by lia. split; [exact H30 | lia].
Qed.

Lemma loop_body_consumes_30_witness :
  0 < 10 /\ 0 <= 0
  /\ loop_body (lit "abcd. efghijklmnop") 10 0 [] = Continue 5 [lit "abcd."]
  /\ 3 * 10 < 10 * (5 - 0) /\ 5 <= 0 + 10.
Proof.
  split; [lia|]. split; [lia|]. split; [reflexivity|].
  apply (loop_body_consumes_30 (lit "abcd. efghijklmnop") 10 0 5
           [] [lit "abcd."]); [lia | lia | reflexivity].
Defined.

Lemma length_append_if_nonempty (chunks : list str) (chunk : str) :
  (length (append_if_nonempty chunks chunk) <= S (length chunks))%nat.
Proof.
  destruct chunk; simpl; [lia|]. rewrite length_app. simpl. lia.
Qed.

(** The number of chunks is bounded by the length of the text: with N
    chunks returned, the N - 1 cuts each consumed more than 30% of
    chunk_size, so 3 * chunk_size * (N - 1) < 10 * len(text). *)
Theorem chunk_text_count (text : str) (chunk_size : Z) :
  0 < chunk_size ->
  3 * chunk_size * (Z.of_nat (length (chunk_text text chunk_size)) - 1)
  < 10 * len text.
Proof.
  intros Hc.
  apply chunk_text_invariant with
    (I := fun start chunks =>
            0 <= start <= len text
            /\ 3 * chunk_size * Z.of_nat (length chunks) <= 10 * start)
    (Q := fun chunks =>
            3 * chunk_size * (Z.of_nat (length chunks) - 1) < 10 * len text).
  - pose proof (len_nonneg text). simpl. lia.
  - intros start chunks [Hs Hn] Hlt.
    destruct (loop_body text chunk_size start chunks) as [c | s' c] eqn:Hb.
    + unfold loop_body in Hb.
      destruct (len text <=? start + chunk_size); [|discriminate].
      injection Hb as <-. rewrite length_app. cbn [length].
      replace (Z.of_nat (length chunks + 1) - 1)
        with (Z.of_nat (length chunks)) by lia.
      lia.
    + pose proof (adjusted_end_after_30 text chunk_size start Hc) as H30.
      unfold loop_body in Hb.
      destruct (len text <=? start + chunk_size) eqn:E; [discriminate|].
      apply Z.leb_gt in E. injection Hb as <- <-.
      pose proof (adjusted_end_bounds text chunk_size start
                    Hc ltac:(lia) ltac:(lia)) as Hbd.
      rewrite Z.max_r in * by lia. split; [lia|].
      pose proof (length_append_if_nonempty chunks
                    (strip (slice text start
                              (adjusted_end text chunk_size start)))) as Hl.
      apply Nat2Z.inj_le in Hl. rewrite Nat2Z.inj_succ in Hl.
      assert (3 * chunk_size
              * Z.of_nat (length
                            (append_if_nonempty chunks
                               (strip (slice text start
                                         (adjusted_end text chunk_size start)))))
              <= 3 * chunk_size * (Z.of_nat (length chunks) + 1)).
      { apply Z.mul_le_mono_nonneg_l; lia. }
      lia.
  - intros start chunks [Hs Hn] Hge.
    replace (3 * chunk_size * (Z.of_nat (length chunks) - 1))
      with (3 * chunk_size * Z.of_nat (length chunks) - 3 * chunk_size)
      by ring.
    lia.
Qed.

Lemma chunk_text_count_witness :
  0 < 10 /\
  3 * 10 * (Z.of_nat (length (chunk_text (lit "abcd. efghijklmnop") 10)) - 1)
  < 10 * len (lit "abcd. efghijklmnop").
Proof.
  split; [lia|]. apply (chunk_text_count (lit "abcd. efghijklmnop") 10). lia.
Defined.

(** With chunk_size = 0 every window is empty: the scan moves on one
    character at a time by the [max(start + 1, end)] of line 64 and the
    whole text is dropped. *)
Theorem chunk_text_zero_size (text : str) : chunk_text text 0 = [].
Proof.
  apply chunk_text_invariant with
    (I := fun start (chunks : list str) => 0 <= start /\ chunks = []).
  - split; [lia | reflexivity].
  - intros start chunks [Hs ->] Hlt. unfold loop_body.
    assert (E : (len text <=? start + 0) = false) by (apply Z.leb_gt; lia).
    rewrite E.
    assert (Hw : forall e, e = start -> slice text start e = []).
    { intros e ->. rewrite slice_inside by lia.
      replace (start - start) with 0 by lia. reflexivity. }
    assert (Ha : adjusted_end text 0 start = start).
    { unfold adjusted_end. rewrite (Hw (start + 0)) by lia.
      cbn. lia. }
    rewrite Ha, (Hw start eq_refl). cbn [strip lstrip rstrip append_if_nonempty].
    split; [lia | reflexivity].
  - intros start chunks [_ ->] _. reflexivity.
Qed.

(** * The cut rules, one by one *)

Lemma last_occurrence_rfind (sub s : str) (p : Z) :
  last_occurrence sub s p -> rfind s sub = p.
Proof.
  intros [Ho Hmax]. destruct (rfind_spec s sub) as [[_ Hn] | [Hr Hrmax]].
  - exfalso. exact (Hn p Ho).
  - pose proof (Hmax _ Hr). pose proof (Hrmax _ Ho). lia.
Qed.

Lemma no_occurrence_rfind (sub s : str) :
  (forall i, ~ occurs_at sub s i) -> rfind s sub = -1.
Proof.
  intros Hn. destruct (rfind_spec s sub) as [[H _] | [Hr _]]; [exact H|].
  exfalso. exact (Hn _ Hr).
Qed.

(** A rule whose every occurrence fails the 30% test does not fire. *)
Lemma rule_fails (sub s : str) (chunk_size : Z) :
  (forall i, occurs_at sub s i -> above_30 i chunk_size = false) ->
  negb (rfind s sub =? -1) && above_30 (rfind s sub) chunk_size = false.
Proof.
  intros H. destruct (rfind_spec s sub) as [[Hn _] | [Ho _]].
  - rewrite Hn. reflexivity.
  - rewrite (H _ Ho). apply andb_false_r.
Qed.

Lemma cuts_at_intro (text : str) (chunk_size start e : Z) :
  start + chunk_size < len text -> start < e ->
  adjusted_end text chunk_size start = e -> cuts_at text chunk_size start e.
Proof.
  intros Hlen Hlt Ha. split; [exact Ha|]. intros chunks. unfold loop_body.
  assert (E : (len text <=? start + chunk_size) = false)
    by (apply Z.leb_gt; lia).
  rewrite E, Ha, Z.max_r by lia. reflexivity.
Qed.

Lemma starts_with_firstn (sub s : str) (n : nat) :
  starts_with sub (firstn n s) = true -> starts_with sub s = true.
Proof.
  revert s n. induction sub as [|c sub IH]; intros s n H; [reflexivity|].
  destruct s as [|d s]; [rewrite firstn_nil in H; exact H|].
  destruct n as [|n]; [discriminate H|].
  simpl in *. apply andb_prop in H. destruct H as [-> H].
  exact (IH s n H).
Qed.

(** An occurrence in the window is an occurrence in the text. *)
Lemma occurs_in_window (sub text : str) (chunk_size start p : Z) :
  0 <= start -> 0 <= chunk_size -> start + chunk_size <= len text ->
  occurs_at sub (window text chunk_size start) p ->
  starts_with sub (slice_from text (start + p)) = true.
Proof.
  intros Hs Hc Hlen [H0 [Hw _]].
  unfold window in Hw. rewrite slice_inside in Hw by lia.
  rewrite skipn_firstn_comm in Hw. apply starts_with_firstn in Hw.
  rewrite skipn_skipn in Hw. rewrite slice_from_inside by lia.
  replace (Z.to_nat (start + p)) with (Z.to_nat p + Z.to_nat start)%nat by lia.
  exact Hw.
Qed.

(** Rule 1, the code fence: when the last "```" of the window lies
    strictly after 30% of chunk_size, the cut is made immediately before
    it, whatever else the window holds, and the rest of the text then
    starts with that fence. *)
Theorem fence_rule (text : str) (chunk_size start p : Z) :
  0 < chunk_size -> 0 <= start -> start + chunk_size < len text ->
  last_occurrence fence (window text chunk_size start) p ->
  above_30 p chunk_size = true ->
  cuts_at text chunk_size start (start + p)
  /\ starts_with fence (slice_from text (start + p)) = true.
Proof.
  intros Hc Hs Hlen Hlast H30. split.
  - apply cuts_at_intro; [exact Hlen | |].
    + apply (above_30_pos _ _ Hc) in H30. lia.
    + unfold adjusted_end. fold (window text chunk_size start).
      rewrite (last_occurrence_rfind _ _ _ Hlast), H30.
      destruct Hlast as [[H0 _] _].
      assert (E : (p =? -1) = false) by (apply Z.eqb_neq; lia).
      rewrite E. reflexivity.
  - apply (occurs_in_window fence text chunk_size); try lia.
    exact (proj1 Hlast).
Qed.

(** Rule 2, the blank line: when no code fence of the window lies
    strictly after 30% of chunk_size and the last blank line of the window
    does, the cut is made at that blank line, whatever sentences the
    window holds; the next window starts with it. *)
Theorem blank_line_rule (text : str) (chunk_size start p : Z) :
  0 < chunk_size -> 0 <= start -> start + chunk_size < len text ->
  (forall i, occurs_at fence (window text chunk_size start) i ->
             above_30 i chunk_size = false) ->
  last_occurrence blank_line (window text chunk_size start) p ->
  above_30 p chunk_size = true ->
  cuts_at text chunk_size start (start + p)
  /\ starts_with blank_line (slice_from text (start + p)) = true.
Proof.
  intros Hc Hs Hlen Hfence Hlast H30. split.
  - apply cuts_at_intro; [exact Hlen | |].
    + apply (above_30_pos _ _ Hc) in H30. lia.
    + unfold adjusted_end. fold (window text chunk_size start).
      rewrite (rule_fails _ _ _ Hfence), contains_rfind.
      rewrite (last_occurrence_rfind _ _ _ Hlast), H30.
      destruct Hlast as [[H0 _] _].
      assert (E : (0 <=? p) = true) by (apply Z.leb_le; lia).
      rewrite E. reflexivity.
  - apply (occurs_in_window blank_line text chunk_size); try lia.
    exact (proj1 Hlast).
Qed.

(** Rule 4, the raw boundary: when no code fence of the window lies
    strictly after 30% of chunk_size, and either the window holds a blank
    line but none after 30% (sentences are then not looked at), or it holds
    no blank line and no ". " after 30%, the cut is the raw window
    boundary. *)
Theorem raw_boundary_rule (text : str) (chunk_size start : Z) :
  0 < chunk_size -> start + chunk_size < len text ->
  (forall i, occurs_at fence (window text chunk_size start) i ->
             above_30 i chunk_size = false) ->
  ((exists i, occurs_at blank_line (window text chunk_size start) i)
   /\ (forall i, occurs_at blank_line (window text chunk_size start) i ->
                 above_30 i chunk_size = false))
  \/ ((forall i, ~ occurs_at blank_line (window text chunk_size start) i)
      /\ (forall i, occurs_at period_space (window text chunk_size start) i ->
                    above_30 i chunk_size = false)) ->
  cuts_at text chunk_size start (start + chunk_size).
Proof.
  intros Hc Hlen Hfence Hrest.
  apply cuts_at_intro; [exact Hlen | lia |].
  unfold adjusted_end. fold (window text chunk_size start).
  set (w := window text chunk_size start) in *.
  rewrite (rule_fails _ _ _ Hfence), !contains_rfind.
  destruct Hrest as [[[i Hi] Hblank] | [Hnone Hperiod]].
  - destruct (rfind_spec w blank_line) as [[_ Hn] | [Ho _]].
    + exfalso. exact (Hn i Hi).
    + assert (E : (0 <=? rfind w blank_line) = true).
      { apply Z.leb_le. exact (proj1 Ho). }
      rewrite E, (Hblank _ Ho). reflexivity.
  - rewrite (no_occurrence_rfind _ _ Hnone). cbn [Z.leb Z.compare].
    destruct (rfind_spec w period_space) as [[Hn _] | [Ho _]].
    + rewrite Hn. reflexivity.
    + assert (E : (0 <=? rfind w period_space) = true).
      { apply Z.leb_le. exact (proj1 Ho). }
      rewrite E, (Hperiod _ Ho). reflexivity.
Qed.

Ltac last_occurrence_here k :=
  split;
  [occurs_here |
   let i := fresh "i" in let Hi := fresh "Hi" in
   intros i Hi;
   match type of Hi with
   | occurs_at ?sub ?s i =>
       let Hmax := fresh "Hmax" in
       destruct (rfind_spec s sub) as [[_ ?Hn] | [_ Hmax]];
       [exfalso; exact (Hn i Hi) |
        specialize (Hmax i Hi); change (rfind s sub) with k in Hmax;
        exact Hmax]
   end].

Lemma fence_rule_witness :
  above_30 6 10 = true
  /\ cuts_at (lit "abcdef```ghijklmnop") 10 0 (0 + 6)
  /\ starts_with fence (slice_from (lit "abcdef```ghijklmnop") (0 + 6)) = true.
Proof.
  split; [reflexivity|].
  apply (fence_rule (lit "abcdef```ghijklmnop") 10 0 6);
    [lia | lia | reflexivity | | reflexivity].
  last_occurrence_here 6.
Defined.

Lemma blank_line_rule_witness :
  let text := lit "ab. cdef" ++ blank_line ++ lit "ghijklmnop" in
  above_30 8 10 = true
  /\ cuts_at text 10 0 (0 + 8)
  /\ starts_with blank_line (slice_from text (0 + 8)) = true.
Proof.
  intros text. split; [reflexivity|].
  apply (blank_line_rule text 10 0 8);
    [lia | lia | reflexivity | | | reflexivity].
  - intros i Hi. no_occurrence Hi.
  - last_occurrence_here 8.
Defined.

Lemma raw_boundary_rule_witness :
  let text := blank_line ++ lit "ab. cdefghijkl" in
  (exists i, occurs_at period_space (window text 10 0) i
             /\ above_30 i 10 = true)
  /\ cuts_at text 10 0 (0 + 10).
Proof.
  intros text. split.
  - exists 4. split; [occurs_here | reflexivity].
  - apply (raw_boundary_rule text 10 0); [lia | reflexivity | |].
    + intros i Hi. no_occurrence Hi.
    + left. split.
      * exists 0. occurs_here.
      * intros i Hi. only_occurrence_is Hi 0. reflexivity.
Defined.

(** * More on the enricher *)

(** When process_chunk returns and what: exactly when urlparse accepts
    the URL and get_title_and_summary hands back a dict with both keys;
    the record then holds the chunk, its number and the URL as given, the
    two values found under the keys, the vector of get_embedding and the
    metadata with the length of the chunk and the path of the URL.  In
    every other case it raises; the embedding call has no say in this. *)
Theorem process_chunk_returns_iff (w : World) (c : str) (n : Z) (u : str)
  (r : ProcessedChunk) :
  process_chunk w c n u = Ok r
  <-> exists path items,
        urlparse_path w u = Ok path
        /\ get_title_and_summary w c u = VDict items
        /\ dict_get items (lit "title") = Some (title r)
        /\ dict_get items (lit "summary") = Some (summary r)
        /\ url r = u /\ chunk_number r = n /\ content r = c
        /\ embedding r = get_embedding w c
        /\ metadata r = metadata_of w c path.
Proof.
  unfold process_chunk. split.
  - intros H. destruct (urlparse_path w u) as [path|]; [|discriminate].
    cbn [bind] in H. exists path.
    destruct (get_title_and_summary w c u) as [| | | | |l|items];
      try discriminate.
    exists items. unfold getitem in H.
    destruct (dict_get items (lit "title")) as [t|]; [|discriminate].
    destruct (dict_get items (lit "summary")) as [s|]; [|discriminate].
    cbn [bind] in H. injection H as <-. repeat split.
  - intros [path [items [Hp [Hg [Ht [Hs [Hu [Hn [Hc [He Hm]]]]]]]]]].
    rewrite Hp, Hg. cbn [bind getitem]. rewrite Ht, Hs. cbn [bind].
    destruct r. simpl in *. subst. reflexivity.
Qed.

Lemma slice_prefix (s : str) (n : Z) :
  0 <= n -> slice s 0 n = firstn (Z.to_nat n) s.
Proof.
  intros Hn. unfold slice, norm_index. pose proof (len_nonneg s).
  destruct (n <? 0) eqn:E; [apply Z.ltb_lt in E; lia|].
  cbn [Z.ltb Z.compare]. rewrite (Z.min_l 0) by lia. cbn [Z.to_nat skipn].
  rewrite Z.sub_0_r. destruct (Z.le_ge_cases n (len s)).
  - rewrite Z.min_l by lia. reflexivity.
  - rewrite Z.min_r by lia. unfold len in *.
    rewrite !firstn_all2 by lia. reflexivity.
Qed.

(** What follows the first 1000 characters of a chunk is never sent to
    the title/summary call: the answer for a chunk is the answer for its
    first 1000 characters. *)
Theorem get_title_and_summary_first_1000 (w : World) (c rest u : str) :
  1000 <= len c ->
  get_title_and_summary w (c ++ rest) u = get_title_and_summary w c u.
Proof.
  intros Hc. unfold get_title_and_summary.
  rewrite !slice_prefix by lia. unfold len in Hc.
  rewrite firstn_app.
  replace (Z.to_nat 1000 - length c)%nat with 0%nat by lia.
  rewrite firstn_O, app_nil_r. reflexivity.
Qed.

Lemma get_title_and_summary_first_1000_witness :
  1000 <= len (times_A 1000)
  /\ get_title_and_summary answering_world (times_A 1000 ++ lit "tail") docs_url
     = get_title_and_summary answering_world (times_A 1000) docs_url.
Proof.
  split; [vm_compute; intros H; discriminate H|].
  apply (get_title_and_summary_first_1000 answering_world (times_A 1000)).
  vm_compute. intros H. discriminate H.
Defined.

(** Content that is not JSON is absorbed like a failed call: when every
    title/summary request raises or comes back as text json.loads rejects,
    process_chunk returns (for a URL that urlparse accepts) a record with
    the two sentinel strings, and keeps the provider's embedding. *)
Theorem process_chunk_malformed_content (w : World) (c : str) (n : Z)
  (u path : str) :
  (forall system user,
     chat_completions_create w system user = CallRaises
     \/ chat_completions_create w system user = ContentNotJson) ->
  urlparse_path w u = Ok path ->
  exists r,
    process_chunk w c n u = Ok r
    /\ title r = VStr (lit "Error processing title")
    /\ summary r = VStr (lit "Error processing summary")
    /\ embedding r = get_embedding w c.
Proof.
  intros Hchat Hurl. unfold process_chunk.
  rewrite (get_title_and_summary_caught w c u Hchat), Hurl.
  eexists. split; [reflexivity|]. repeat split.
Qed.

Lemma process_chunk_malformed_content_witness :
  exists r,
    process_chunk malformed_world (lit "hello") 0 docs_url = Ok r
    /\ title r = VStr (lit "Error processing title")
    /\ summary r = VStr (lit "Error processing summary")
    /\ embedding r = get_embedding malformed_world (lit "hello").
Proof.
  apply (process_chunk_malformed_content malformed_world (lit "hello") 0
           docs_url (lit "/introduction")).
  - intros system user. right. reflexivity.
  - reflexivity.
Defined.

(** * The store writer *)

(** insert_chunk sends every field of the record to the store: two
    records for which insert_chunk behaves alike in every world are the
    same record. *)
Theorem insert_chunk_sends_all_fields (c1 c2 : ProcessedChunk) :
  (forall w, insert_chunk w c1 = insert_chunk w c2) -> c1 = c2.
Proof.
  intros H. specialize (H echo_world). unfold insert_chunk in H.
  cbn [table_insert_execute echo_world] in H.
  destruct c1, c2. cbn [url chunk_number title summary content metadata
                        embedding] in H.
  injection H as -> -> -> -> -> -> ->. reflexivity.
Qed.

Lemma insert_chunk_sends_all_fields_witness : hello_chunk = hello_chunk.
Proof.
  apply (insert_chunk_sends_all_fields hello_chunk hello_chunk).
  intros w. reflexivity.
Defined.

(** * More on the document pipeline *)

Lemma combine_snd {A B : Type} (l : list A) (ns : list B) :
  length ns = length l -> map snd (combine ns l) = l.
Proof.
  revert ns. induction l as [|a l IH]; intros [|n ns] Hn; simpl in *;
    try reflexivity; try discriminate.
  f_equal. apply IH. lia.
Qed.

Lemma enumerate_snd {A : Type} (l : list A) : map snd (enumerate l) = l.
Proof.
  unfold enumerate. apply combine_snd.
  rewrite length_map, length_seq. reflexivity.
Qed.

Lemma enrich_phase_calls (w : World) (u : str) (ics : list (Z * str)) :
  concat (map fst (map (process_chunk_task w u) ics))
  = map (fun ic : Z * str => ProcessChunkCalled (snd ic) (fst ic) u) ics.
Proof.
  induction ics as [|ic ics IH]; simpl; [reflexivity|].
  rewrite IH. reflexivity.
Qed.

Lemma store_phase_calls (w : World) (rs : list ProcessedChunk) :
  concat (map fst (map (insert_chunk_task w) rs)) = map InsertChunkCalled rs.
Proof.
  induction rs as [|r rs IH]; simpl; [reflexivity|].
  rewrite IH. reflexivity.
Qed.

(** The results of a first phase that returned. *)
Lemma all_ok_process_chunks_fields (w : World) (u : str)
  (ics : list (Z * str)) (rs : list ProcessedChunk) :
  all_ok (map snd (map (process_chunk_task w u) ics)) = Ok rs ->
  map chunk_number rs = map fst ics
  /\ map content rs = map snd ics
  /\ Forall (fun r => url r = u) rs.
Proof.
  revert rs. induction ics as [|[i c] ics IH]; intros rs H.
  - simpl in H. injection H as <-. repeat split; constructor.
  - cbn [map snd fst process_chunk_task all_ok] in H.
    destruct (process_chunk w c i u) as [r|] eqn:Hr; [|discriminate].
    cbn [bind] in H.
    destruct (all_ok (map snd (map (process_chunk_task w u) ics)))
      as [rs'|] eqn:Hrs; [|discriminate].
    cbn [bind] in H. injection H as <-.
    destruct (IH rs' eq_refl) as [H1 [H2 H3]].
    apply process_chunk_fields in Hr. destruct Hr as [Hu [Hn [Hc _]]].
    cbn [map fst snd]. rewrite H1, H2, Hn, Hc.
    repeat split. constructor; assumption.
Qed.

Lemma stored_chunks_app (a b : list event) :
  stored_chunks (a ++ b) = stored_chunks a ++ stored_chunks b.
Proof.
  induction a as [|[c i u | c] a IH]; simpl; [reflexivity | |];
    rewrite IH; reflexivity.
Qed.

Lemma stored_chunks_enrich_phase (u : str) (chunks : list str) :
  stored_chunks (enrich_phase u chunks) = [].
Proof.
  unfold enrich_phase. induction (enumerate chunks) as [|ic ics IH];
    simpl; [reflexivity | exact IH].
Qed.

Lemma stored_chunks_inserts (rs : list ProcessedChunk) :
  stored_chunks (map InsertChunkCalled rs) = rs.
Proof. induction rs as [|r rs IH]; simpl; [reflexivity|]. rewrite IH. reflexivity. Qed.

(** The two ways process_and_store_document can end. *)
Lemma process_and_store_document_cases (w : World) (u markdown : str) :
  let chunks := chunk_text markdown default_chunk_size in
  (exists rs,
     process_and_store_document w u markdown
     = (enrich_phase u chunks ++ map InsertChunkCalled rs, Ok tt)
     /\ map content rs = chunks
     /\ map chunk_number rs = indices (length chunks)
     /\ Forall (fun r => url r = u) rs)
  \/ (exists e,
        process_and_store_document w u markdown
        = (enrich_phase u chunks, Raise e)).
Proof.
  intros chunks. unfold process_and_store_document, gather.
  fold chunks. rewrite enrich_phase_calls. fold (enrich_phase u chunks).
  destruct (all_ok (map snd (map (process_chunk_task w u) (enumerate chunks))))
    as [rs | e] eqn:Hrs.
  - left. exists rs. rewrite store_phase_calls.
    destruct (store_calls w rs) as [_ [_ [vs Hvs]]]. rewrite Hvs.
    cbn [bind]. split; [reflexivity|].
    destruct (all_ok_process_chunks_fields w u _ rs Hrs) as [H1 [H2 H3]].
    rewrite H1, H2, enumerate_fst, enumerate_snd. repeat split. exact H3.
  - right. exists e. reflexivity.
Qed.

(** insert_chunk is called for all the chunks or for none: the calls of
    process_and_store_document are first the N calls of process_chunk, chunk
    i with number i, and then only calls of insert_chunk.  Either the
    function returns, and then insert_chunk was called on N records, which
    carry the chunks in order, the numbers 0 .. N-1 and the URL; or it
    raises, and then insert_chunk was not called at all.  What the store
    does with a row is not part of this: insert_chunk absorbs a refusal,
    so that a returning run may have stored a document in part or not at
    all (see the example below). *)
Theorem process_and_store_document_inserts_all_or_none (w : World)
  (u markdown : str) :
  let chunks := chunk_text markdown default_chunk_size in
  let run := process_and_store_document w u markdown in
  fst run = enrich_phase u chunks ++ map InsertChunkCalled (stored_chunks (fst run))
  /\ ((snd run = Ok tt
       /\ map content (stored_chunks (fst run)) = chunks
       /\ map chunk_number (stored_chunks (fst run)) = indices (length chunks)
       /\ Forall (fun r => url r = u) (stored_chunks (fst run)))
      \/ ((exists e, snd run = Raise e) /\ stored_chunks (fst run) = [])).
Proof.
  intros chunks run. unfold run.
  destruct (process_and_store_document_cases w u markdown)
    as [[rs [-> [H1 [H2 H3]]]] | [e ->]]; cbn [fst snd]; fold chunks.
  - rewrite stored_chunks_app, stored_chunks_enrich_phase,
      stored_chunks_inserts. cbn [app].
    split; [reflexivity|]. left. repeat split; assumption.
  - rewrite stored_chunks_enrich_phase, app_nil_r.
    split; [reflexivity|]. right. split; [exists e|]; reflexivity.
Qed.

(** A store that refuses every row: insert_chunk is still called on the
    record, returns None, and the run returns normally. *)
Example process_and_store_document_refusing_store :
  process_and_store_document refusing_store_world docs_url (lit "hello")
  = ([ProcessChunkCalled (lit "hello") 0 docs_url;
      InsertChunkCalled hello_chunk], Ok tt)
  /\ insert_chunk refusing_store_world hello_chunk = VNone.
Proof. split; vm_compute; reflexivity. Qed.

(** A page of white space only (and at most 5000 characters) still costs
    a call of the enricher, on the empty chunk. *)
Theorem process_and_store_document_blank_page (w : World) (u markdown : str) :
  markdown <> [] -> whitespace_only markdown = true ->
  len markdown <= default_chunk_size ->
  fst (process_and_store_document w u markdown)
  = ProcessChunkCalled [] 0 u
      :: map InsertChunkCalled
           (stored_chunks (fst (process_and_store_document w u markdown))).
Proof.
  intros Hne Hws Hlen.
  pose proof (process_and_store_document_cases w u markdown) as Hc.
  cbv zeta in Hc.
  rewrite (chunk_text_blank markdown default_chunk_size Hne Hws Hlen) in Hc.
  destruct Hc as [[rs [-> _]] | [e ->]]; cbn [fst].
  - rewrite stored_chunks_app, stored_chunks_enrich_phase,
      stored_chunks_inserts. reflexivity.
  - reflexivity.
Qed.

Lemma process_and_store_document_blank_page_witness :
  fst (process_and_store_document answering_world docs_url (lit "  "))
  = ProcessChunkCalled [] 0 docs_url
      :: map InsertChunkCalled
           (stored_chunks
              (fst (process_and_store_document answering_world docs_url
                      (lit "  ")))).
Proof.
  apply (process_and_store_document_blank_page answering_world docs_url
           (lit "  ")).
  - discriminate.
  - reflexivity.
  - vm_compute. intros H. discriminate H.
Defined.

Lemma process_and_store_document_calls_witness :
  snd (process_and_store_document answering_world docs_url (lit "hello"))
  = Ok tt
  /\ enriched_numbers
       (fst (process_and_store_document answering_world docs_url (lit "hello")))
     = indices (length (chunk_text (lit "hello") default_chunk_size))
  /\ stored_numbers
       (fst (process_and_store_document answering_world docs_url (lit "hello")))
     = indices (length (chunk_text (lit "hello") default_chunk_size)).
Proof.
  apply (process_and_store_document_calls answering_world docs_url
           (lit "hello")).
  intros i c _. eexists. reflexivity.
Defined.

(** * More on the crawl gate *)

Lemma count_pos_task (p : url_task -> bool) (l : list url_task) (i : nat)
  (t : url_task) :
  nth_error l i = Some t -> p t = true -> 0 < count p l.
Proof.
  revert i. induction l as [|a l IH]; intros [|i] H Hp; simpl in *;
    try discriminate.
  - injection H as ->. rewrite Hp. pose proof (count_nonneg p l). lia.
  - pose proof (IH i H Hp). destruct (p a); lia.
Qed.

Lemma count_pos_inv (p : url_task -> bool) (l : list url_task) :
  0 < count p l -> exists i t, nth_error l i = Some t /\ p t = true.
Proof.
  induction l as [|a l IH]; simpl; [lia|].
  destruct (p a) eqn:Hp.
  - intros _. exists 0%nat, a. split; [reflexivity | exact Hp].
  - intros H. destruct IH as [i [t [Hi Ht]]]; [lia|].
    exists (S i), t. split; assumption.
Qed.

(** The gate does not deadlock: in every state the event loop can reach,
    as long as some task is not finished, something other than a
    cancellation can happen: a task inside the gate can go on, or, when
    none is inside, a task waiting at the gate can enter. *)
Theorem crawl_gate_no_deadlock (urls : list str) (max_concurrent : Z)
  (s0 s : crawl_state) (moves : list move) (i : nat) (t : url_task) :
  0 < max_concurrent ->
  crawl_parallel_start urls max_concurrent = Ok s0 ->
  run s0 moves = Some s ->
  nth_error (url_tasks s) i = Some t -> t <> Finished ->
  exists m s',
    step s m = Some s' /\ forall j, m <> DroppedAtGate j.
Proof.
  intros Hmax Hstart Hrun Hi Ht.
  assert (Hinv : gate_invariant max_concurrent s).
  { eapply gate_invariant_run; [|exact Hrun].
    exact (proj1 (gate_invariant_start urls _ _ Hstart)). }
  destruct Hinv as [H0 H1].
  destruct (Z.eq_dec (slots_held s) 0) as [Hz | Hnz].
  - assert (t = AtGate) as ->.
    { destruct t; try reflexivity; try contradiction;
        pose proof (count_pos_task holds_slot _ _ _ Hi eq_refl) as Hp;
        unfold slots_held in Hz; lia. }
    exists (Acquire i). eexists. split; [|discriminate].
    simpl. rewrite Hi.
    assert (E : (0 <? permits s) = true) by (apply Z.ltb_lt; lia).
    rewrite E. reflexivity.
  - pose proof (count_nonneg holds_slot (url_tasks s)) as Hn.
    destruct (count_pos_inv holds_slot (url_tasks s)) as [j [tj [Hj Hh]]];
      [unfold slots_held in Hnz; lia|].
    destruct tj; try discriminate Hh.
    + exists (FetchFailed j). eexists. split; [|discriminate].
      simpl. rewrite Hj. reflexivity.
    + exists (DocumentDone j). eexists. split; [|discriminate].
      simpl. rewrite Hj. reflexivity.
Qed.

Lemma crawl_gate_no_deadlock_witness :
  exists m s',
    step {| permits := 0; url_tasks := [Fetching; AtGate; Storing] |} m
    = Some s'
    /\ forall j, m <> DroppedAtGate j.
Proof.
  apply (crawl_gate_no_deadlock three_urls 2
           {| permits := 2; url_tasks := [AtGate; AtGate; AtGate] |}
           {| permits := 0; url_tasks := [Fetching; AtGate; Storing] |}
           [Acquire 0; Acquire 2; FetchSucceeded 2]%nat 1%nat AtGate);
    [lia | reflexivity | reflexivity | reflexivity | discriminate].
Defined.

Lemma count_all_false (p : url_task -> bool) (l : list url_task) :
  Forall (fun t => p t = false) l -> count p l = 0.
Proof.
  induction 1 as [|t l Ht Hl IH]; simpl; [reflexivity|].
  rewrite Ht, IH. reflexivity.
Qed.

(** Every slot comes back: in a state the event loop can reach in which
    all tasks are finished, the counter of the semaphore is max_concurrent
    again. *)
Theorem crawl_gate_all_released (urls : list str) (max_concurrent : Z)
  (s0 s : crawl_state) (moves : list move) :
  crawl_parallel_start urls max_concurrent = Ok s0 ->
  run s0 moves = Some s ->
  Forall (fun t => t = Finished) (url_tasks s) ->
  permits s = max_concurrent.
Proof.
  intros Hstart Hrun Hall.
  assert (Hinv : gate_invariant max_concurrent s).
  { eapply gate_invariant_run; [|exact Hrun].
    exact (proj1 (gate_invariant_start urls _ _ Hstart)). }
  destruct Hinv as [_ H1]. unfold slots_held in H1.
  rewrite count_all_false in H1; [lia|].
  eapply Forall_impl; [|exact Hall]. intros t ->. reflexivity.
Qed.

Lemma crawl_gate_all_released_witness :
  permits {| permits := 2; url_tasks := [Finished; Finished; Finished] |} = 2.
Proof.
  apply (crawl_gate_all_released three_urls 2
           {| permits := 2; url_tasks := [AtGate; AtGate; AtGate] |}
           {| permits := 2; url_tasks := [Finished; Finished; Finished] |}
           [Acquire 0; Acquire 2; FetchFailed 2; Acquire 1; FetchSucceeded 0;
            DocumentDone 0; FetchRaised 1]%nat).
  - reflexivity.
  - reflexivity.
  - repeat constructor.
Defined.

(** A task that has left the gate never stands at it again. *)
Lemma step_keeps_past_gate (s s' : crawl_state) (m : move) (i : nat)
  (t : url_task) :
  step s m = Some s' ->
  nth_error (url_tasks s) i = Some t -> t <> AtGate ->
  exists t', nth_error (url_tasks s') i = Some t' /\ t' <> AtGate.
Proof.
  intros Hs Hi Ht.
  destruct m as [j | j | j | j | j | j]; simpl in Hs;
    destruct (nth_error (url_tasks s) j) as [[| | |]|] eqn:Ej;
    try discriminate;
    try (destruct (0 <? permits s); [|discriminate]);
    injection Hs as <-; unfold leave; cbn [url_tasks];
    (destruct (Nat.eq_dec i j) as [-> | Hne];
     [rewrite (nth_error_set_task_same _ _ _ _ Ej); eexists;
      split; [reflexivity | discriminate]
     | rewrite (nth_error_set_task_other _ _ _ _ Hne); exists t;
       split; assumption]).
Qed.

Lemma run_past_gate (s s' : crawl_state) (moves : list move) (i : nat)
  (t : url_task) :
  run s moves = Some s' ->
  nth_error (url_tasks s) i = Some t -> t <> AtGate ->
  fetches_started i moves = 0%nat.
Proof.
  revert s t. induction moves as [|m moves IH]; intros s t Hr Hi Ht;
    [reflexivity|].
  simpl in Hr. destruct (step s m) as [s1|] eqn:Es; [|discriminate].
  destruct (step_keeps_past_gate _ _ _ _ _ Es Hi Ht) as [t1 [Hi1 Ht1]].
  pose proof (IH s1 t1 Hr Hi1 Ht1) as Hrest.
  destruct m as [j | j | j | j | j | j]; cbn [fetches_started];
    try exact Hrest.
  destruct (Nat.eqb i j) eqn:E; [|exact Hrest].
  apply Nat.eqb_eq in E. subst j. simpl in Es. rewrite Hi in Es.
  destruct t; try discriminate. contradiction.
Qed.

(** Entering the gate takes a task away from those waiting at it, and
    no move brings one back. *)
Lemma run_fetches_total (s s' : crawl_state) (moves : list move) :
  run s moves = Some s' ->
  Z.of_nat (fetches_total moves) + count is_at_gate (url_tasks s')
  <= count is_at_gate (url_tasks s).
Proof.
  revert s. induction moves as [|m moves IH]; intros s Hr.
  - simpl in Hr. injection Hr as <-. simpl. lia.
  - simpl in Hr. destruct (step s m) as [s1|] eqn:Es; [|discriminate].
    pose proof (IH s1 Hr) as Hrest.
    assert (Hstep : count is_at_gate (url_tasks s1)
                    + (match m with Acquire _ => 1 | _ => 0 end)
                    <= count is_at_gate (url_tasks s)).
    { destruct m as [j | j | j | j | j | j]; simpl in Es;
        destruct (nth_error (url_tasks s) j) as [[| | |]|] eqn:Ej;
        try discriminate;
        try (destruct (0 <? permits s); [|discriminate]);
        injection Es as <-; unfold leave; cbn [url_tasks];
        rewrite (count_set_task _ _ _ _ _ Ej); cbn [is_at_gate]; lia. }
    destruct m; cbn [fetches_total]; try lia.
Qed.

(** No task is admitted twice: crawl_parallel makes one task per entry
    of its URL list, and in every schedule the event loop can follow each
    task enters the gate, and so starts its fetch, at most once; the crawl
    therefore starts at most len(urls) fetches.  (A URL that is listed twice
    has two tasks and can be fetched twice.) *)
Theorem crawl_gate_admits_each_task_once (urls : list str)
  (max_concurrent : Z) (s0 s : crawl_state) (moves : list move) :
  crawl_parallel_start urls max_concurrent = Ok s0 ->
  run s0 moves = Some s ->
  (forall i, (fetches_started i moves <= 1)%nat)
  /\ (fetches_total moves <= length urls)%nat.
Proof.
  intros Hstart Hrun. split.
  - intros i. clear Hstart. revert s0 Hrun.
    induction moves as [|m moves IH]; intros s0 Hr; [simpl; lia|].
    simpl in Hr. destruct (step s0 m) as [s1|] eqn:Es; [|discriminate].
    pose proof (IH s1 Hr) as Hrest.
    destruct m as [j | j | j | j | j | j]; cbn [fetches_started];
      try exact Hrest.
    destruct (Nat.eqb i j) eqn:E; [|exact Hrest].
    apply Nat.eqb_eq in E. subst j. simpl in Es.
    destruct (nth_error (url_tasks s0) i) as [[| | |]|] eqn:Ei;
      try discriminate.
    destruct (0 <? permits s0); [|discriminate]. injection Es as <-.
    rewrite (run_past_gate _ _ _ i Fetching Hr); [lia | | discriminate].
    cbn [url_tasks]. apply (nth_error_set_task_same _ _ _ _ Ei).
  - pose proof (run_fetches_total _ _ _ Hrun) as Ht.
    pose proof (count_nonneg is_at_gate (url_tasks s)) as Hn.
    assert (Hs0 : count is_at_gate (url_tasks s0) = Z.of_nat (length urls)).
    { unfold crawl_parallel_start in Hstart.
      destruct (Semaphore max_concurrent); [|discriminate].
      cbn [bind] in Hstart. injection Hstart as <-. cbn [url_tasks].
      clear. induction urls as [|u urls IH]; [reflexivity|].
      cbn [map count is_at_gate length]. rewrite IH. lia. }
    lia.
Qed.

(** The list holds the introduction page twice: two tasks, two fetches
    of the same URL, both in flight. *)
Example crawl_same_url_twice :
  exists s0,
    crawl_parallel_start [docs_url; docs_url] 2 = Ok s0
    /\ run s0 [Acquire 0; Acquire 1]%nat
       = Some {| permits := 0; url_tasks := [Fetching; Fetching] |}.
Proof. eexists. split; reflexivity. Qed.

Lemma crawl_gate_admits_each_task_once_witness :
  (forall i,
     (fetches_started i
        [Acquire 0; Acquire 2; FetchFailed 2; Acquire 1; FetchSucceeded 0;
         DocumentDone 0; FetchRaised 1] <= 1)%nat)
  /\ (fetches_total
        [Acquire 0; Acquire 2; FetchFailed 2; Acquire 1; FetchSucceeded 0;
         DocumentDone 0; FetchRaised 1] <= length three_urls)%nat.
Proof.
  apply (crawl_gate_admits_each_task_once three_urls 2
           {| permits := 2; url_tasks := [AtGate; AtGate; AtGate] |}
           {| permits := 2; url_tasks := [Finished; Finished; Finished] |}).
  - reflexivity.
  - reflexivity.
Defined.

(** * URL discovery *)

Lemma str_eqb_eq (s t : str) : str_eqb s t = true <-> s = t.
Proof.
  revert t. induction s as [|c s IH]; intros [|d t]; simpl;
    try (split; [discriminate | discriminate]); [split; reflexivity|].
  rewrite andb_true_iff, N.eqb_eq, IH. split.
  - intros [-> ->]. reflexivity.
  - intros H. injection H as -> ->. split; reflexivity.
Qed.

Lemma existsb_str_eqb (u : str) (urls : list str) :
  existsb (str_eqb u) urls = true <-> In u urls.
Proof.
  rewrite existsb_exists. split.
  - intros [x [Hx He]]. apply str_eqb_eq in He. subst x. exact Hx.
  - intros H. exists u. split; [exact H | apply str_eqb_eq; reflexivity].
Qed.

Lemma set_add_In (u v : str) (urls : list str) :
  In u (set_add v urls) <-> u = v \/ In u urls.
Proof.
  unfold set_add. destruct (existsb (str_eqb v) urls) eqn:E.
  - apply existsb_str_eqb in E. split; [right; assumption|].
    intros [-> | H]; assumption.
  - rewrite in_app_iff. simpl. split.
    + intros [H | [<- | []]]; [right | left]; auto.
    + intros [-> | H]; [right; left; reflexivity | left; exact H].
Qed.

Lemma set_add_NoDup (v : str) (urls : list str) :
  NoDup urls -> NoDup (set_add v urls).
Proof.
  intros Hn. unfold set_add. destruct (existsb (str_eqb v) urls) eqn:E;
    [exact Hn|].
  assert (Hv : ~ In v urls).
  { intros H. apply existsb_str_eqb in H. congruence. }
  clear E. induction Hn as [|x l Hx Hl IH]; simpl.
  - constructor; [intros [] | constructor].
  - constructor.
    + rewrite in_app_iff. simpl. intros [H | [H | []]]; [auto|].
      subst x. apply Hv. left. reflexivity.
    + apply IH. intros H. apply Hv. right. exact H.
Qed.

Lemma root_relative_Some (h : str) :
  root_relative (Some h) = starts_with slash h.
Proof. destruct h; reflexivity. Qed.

(** What the loop has collected when it ends without an exception. *)
Lemma collect_urls_ok (site : Site) (links : list (option str))
  (urls r : list str) :
  collect_urls site links urls = Ok r ->
  (NoDup urls -> NoDup r)
  /\ forall u,
       In u r <->
       In u urls
       \/ exists h, In (Some h) links /\ starts_with slash h = true
                    /\ urljoin site base_url h = Ok u.
Proof.
  revert urls. induction links as [|href links IH]; intros urls H.
  - simpl in H. injection H as <-. split; [auto|].
    intros u. split; [left; assumption|].
    intros [Hu | [h [[] _]]]. exact Hu.
  - cbn [collect_urls] in H.
    destruct href as [h|]; [|cbn [root_relative] in H].
    + rewrite root_relative_Some in H.
      destruct (starts_with slash h) eqn:Es.
      * destruct (urljoin site base_url h) as [full|] eqn:Ej; [|discriminate].
        cbn [bind] in H. destruct (IH _ H) as [Hn Hin]. split.
        -- intros Hu. apply Hn, set_add_NoDup, Hu.
        -- intros u. rewrite Hin, set_add_In. split.
           ++ intros [[-> | Hu] | [h' [Hh' Hr]]].
              ** right. exists h. split; [left; reflexivity|]. split; assumption.
              ** left. exact Hu.
              ** right. exists h'. split; [right; exact Hh' | exact Hr].
           ++ intros [Hu | [h' [[Heq | Hh'] [Hs Hj]]]].
              ** left. right. exact Hu.
              ** injection Heq as <-. rewrite Ej in Hj. injection Hj as <-.
                 left. left. reflexivity.
              ** right. exists h'. split; [exact Hh'|]. split; assumption.
      * destruct (IH _ H) as [Hn Hin]. split; [exact Hn|].
        intros u. rewrite Hin. split.
        -- intros [Hu | [h' [Hh' Hr]]]; [left; exact Hu|].
           right. exists h'. split; [right; exact Hh' | exact Hr].
        -- intros [Hu | [h' [[Heq | Hh'] [Hs Hj]]]]; [left; exact Hu | |].
           ++ injection Heq as <-. congruence.
           ++ right. exists h'. split; [exact Hh'|]. split; assumption.
    + destruct (IH _ H) as [Hn Hin]. split; [exact Hn|].
      intros u. rewrite Hin. split.
      * intros [Hu | [h' [Hh' Hr]]]; [left; exact Hu|].
        right. exists h'. split; [right; exact Hh' | exact Hr].
      * intros [Hu | [h' [[Heq | Hh'] Hr]]]; [left; exact Hu | discriminate |].
        right. exists h'. split; [exact Hh' | exact Hr].
Qed.

Lemma get_ultravox_docs_urls_NoDup (site : Site) :
  NoDup (get_ultravox_docs_urls site).
Proof.
  unfold get_ultravox_docs_urls.
  destruct (page_hrefs site (base_url ++ lit "/introduction"))
    as [hrefs|]; cbn [bind]; [|constructor].
  destruct (collect_urls site hrefs []) as [r|] eqn:Ec; [|constructor].
  apply (collect_urls_ok _ _ _ _ Ec). constructor.
Qed.

(** What is returned is a set of joined root-relative links of the
    introduction page: no URL twice, and every URL is [urljoin] of the base
    with an [href] of the page that starts with "/". *)
Theorem get_ultravox_docs_urls_sound (site : Site) :
  NoDup (get_ultravox_docs_urls site)
  /\ forall u,
       In u (get_ultravox_docs_urls site) ->
       exists hrefs h,
         page_hrefs site (base_url ++ lit "/introduction") = Ok hrefs
         /\ In (Some h) hrefs /\ starts_with slash h = true
         /\ urljoin site base_url h = Ok u.
Proof.
  unfold get_ultravox_docs_urls.
  destruct (page_hrefs site (base_url ++ lit "/introduction"))
    as [hrefs|] eqn:Ep; cbn [bind].
  - destruct (collect_urls site hrefs []) as [r|] eqn:Ec.
    + destruct (collect_urls_ok _ _ _ _ Ec) as [Hn Hin]. split.
      * apply Hn. constructor.
      * intros u Hu. apply Hin in Hu. destruct Hu as [[] | [h Hh]].
        exists hrefs, h. split; [reflexivity | exact Hh].
    + split; [constructor | intros u []].
  - split; [constructor | intros u []].
Qed.

(** The loop ends without an exception when every link it joins can be
    joined. *)
Lemma collect_urls_total (site : Site) (links : list (option str))
  (urls : list str) :
  (forall h, In (Some h) links -> starts_with slash h = true ->
             exists u, urljoin site base_url h = Ok u) ->
  exists r, collect_urls site links urls = Ok r.
Proof.
  revert urls. induction links as [|href links IH]; intros urls H.
  - eexists. reflexivity.
  - assert (H' : forall h, In (Some h) links -> starts_with slash h = true ->
                           exists u, urljoin site base_url h = Ok u).
    { intros h Hh. apply H. right. exact Hh. }
    cbn [collect_urls]. destruct href as [h|]; [|apply IH, H'].
    rewrite root_relative_Some.
    destruct (starts_with slash h) eqn:Es; [|apply IH, H'].
    destruct (H h (or_introl eq_refl) Es) as [u ->]. cbn [bind].
    apply IH, H'.
Qed.

(** A single link that cannot be joined makes the loop raise. *)
Lemma collect_urls_raises (site : Site) (links : list (option str))
  (urls : list str) (h : str) (e : exn) :
  In (Some h) links -> starts_with slash h = true ->
  urljoin site base_url h = Raise e ->
  exists e', collect_urls site links urls = Raise e'.
Proof.
  revert urls. induction links as [|href links IH]; intros urls Hin Hs Hj;
    [destruct Hin|]. destruct Hin as [Heq | Hin].
  - subst href. cbn [collect_urls]. rewrite root_relative_Some, Hs, Hj.
    exists e. reflexivity.
  - cbn [collect_urls]. destruct href as [h'|]; [|apply IH; assumption].
    rewrite root_relative_Some.
    destruct (starts_with slash h'); [|apply IH; assumption].
    destruct (urljoin site base_url h') as [u|e'].
    + cbn [bind]. apply IH; assumption.
    + exists e'. reflexivity.
Qed.

(** When the introduction page is fetched and every root-relative link
    can be joined, every such link is in the result. *)
Theorem get_ultravox_docs_urls_complete (site : Site)
  (hrefs : list (option str)) (h u : str) :
  page_hrefs site (base_url ++ lit "/introduction") = Ok hrefs ->
  (forall h', In (Some h') hrefs -> starts_with slash h' = true ->
              exists u', urljoin site base_url h' = Ok u') ->
  In (Some h) hrefs -> starts_with slash h = true ->
  urljoin site base_url h = Ok u ->
  In u (get_ultravox_docs_urls site).
Proof.
  intros Hp Hall Hh Hs Hj. unfold get_ultravox_docs_urls.
  rewrite Hp. cbn [bind].
  destruct (collect_urls_total site hrefs [] Hall) as [r Hr]. rewrite Hr.
  apply (collect_urls_ok _ _ _ _ Hr). right. exists h.
  split; [exact Hh|]. split; assumption.
Qed.

(** Any failure loses everything: when the request for the introduction
    page fails, or when one root-relative link of the page cannot be joined,
    no URL at all is returned, also not those already collected. *)
Theorem get_ultravox_docs_urls_failure (site : Site) :
  (forall e, page_hrefs site (base_url ++ lit "/introduction") = Raise e ->
             get_ultravox_docs_urls site = [])
  /\ (forall hrefs h e,
        page_hrefs site (base_url ++ lit "/introduction") = Ok hrefs ->
        In (Some h) hrefs -> starts_with slash h = true ->
        urljoin site base_url h = Raise e ->
        get_ultravox_docs_urls site = []).
Proof.
  unfold get_ultravox_docs_urls. split.
  - intros e ->. reflexivity.
  - intros hrefs h e -> Hh Hs Hj. cbn [bind].
    destruct (collect_urls_raises site hrefs [] h e Hh Hs Hj) as [e' ->].
    reflexivity.
Qed.

Example get_ultravox_docs_urls_docs_site :
  get_ultravox_docs_urls docs_site
  = [lit "https://docs.ultravox.ai/introduction";
     lit "https://docs.ultravox.ai/api"].
Proof. vm_compute. reflexivity. Qed.

Lemma get_ultravox_docs_urls_complete_witness :
  In (lit "https://docs.ultravox.ai/api") (get_ultravox_docs_urls docs_site).
Proof.
  apply (get_ultravox_docs_urls_complete docs_site
           [Some (lit "/introduction"); Some (lit "https://example.com/");
            None; Some (lit "/api"); Some (lit "#top");
            Some (lit "/introduction"); Some []]
           (lit "/api")).
  - reflexivity.
  - intros h' _ Hs. exists (base_url ++ h'). cbn [urljoin docs_site].
    rewrite Hs. reflexivity.
  - right. right. right. left. reflexivity.
  - reflexivity.
  - reflexivity.
Defined.

Lemma get_ultravox_docs_urls_failure_witness :
  get_ultravox_docs_urls broken_site = [].
Proof.
  apply (proj2 (get_ultravox_docs_urls_failure broken_site)
           [Some (lit "/introduction"); Some (lit "https://example.com/");
            None; Some (lit "/api"); Some (lit "#top");
            Some (lit "/introduction"); Some []]
           (lit "/api") ValueError).
  - reflexivity.
  - right. right. right. left. reflexivity.
  - reflexivity.
  - reflexivity.
Defined.

(** A gate of size zero lets nothing through, and a negative size is
    refused: with max_concurrent < 0 the semaphore cannot be created and
    crawl_parallel raises ValueError; with max_concurrent = 0 the crawl
    starts, but in no state the event loop can reach may any task enter
    the gate, so that no URL is ever fetched. *)
Theorem crawl_gate_edge_sizes (urls : list str) :
  (forall max_concurrent,
     max_concurrent < 0 ->
     crawl_parallel_start urls max_concurrent = Raise ValueError)
  /\ exists s0,
       crawl_parallel_start urls 0 = Ok s0
       /\ forall moves s,
            run s0 moves = Some s ->
            in_flight s = 0 /\ forall i, step s (Acquire i) = None.
Proof.
  split.
  - intros m Hm. unfold crawl_parallel_start, Semaphore.
    assert (E : (m <? 0) = true) by (apply Z.ltb_lt; exact Hm).
    rewrite E. reflexivity.
  - eexists. split; [reflexivity|]. intros moves s Hrun.
    assert (Hinv : gate_invariant 0 s).
    { eapply gate_invariant_run; [|exact Hrun].
      apply (gate_invariant_start urls). reflexivity. }
    destruct Hinv as [H0 H1].
    pose proof (in_flight_le_held s) as Hle.
    pose proof (count_nonneg is_fetching (url_tasks s)) as Hf.
    pose proof (count_nonneg holds_slot (url_tasks s)) as Hh.
    unfold in_flight, slots_held in *. split; [lia|].
    intros i. simpl. destruct (nth_error (url_tasks s) i) as [[| | |]|];
      try reflexivity.
    assert (E : (0 <? permits s) = false) by (apply Z.ltb_ge; lia).
    rewrite E. reflexivity.
Qed.

(** * The per-URL task and the crawl *)

Lemma stored_numbers_chunks (calls : list event) :
  stored_numbers calls = map chunk_number (stored_chunks calls).
Proof.
  induction calls as [|[c i u | c] calls IH]; simpl; [reflexivity | |];
    rewrite IH; reflexivity.
Qed.

(** A per-URL task that returns has enriched and stored every chunk of
    its page, if it had one. *)
Lemma process_url_returns (w : World) (arun : str -> result CrawlResult)
  (u : str) :
  snd (process_url w arun u) = Ok tt ->
  enriched_numbers (fst (process_url w arun u)) = page_numbers arun u
  /\ stored_numbers (fst (process_url w arun u)) = page_numbers arun u.
Proof.
  unfold process_url, page_numbers.
  destruct (arun u) as [fetched|]; [|discriminate].
  destruct (success fetched); [|split; reflexivity].
  destruct (markdown_v2_raw_markdown fetched) as [markdown|]; [|discriminate].
  intros Hr. split; [apply process_and_store_document_enriches|].
  destruct (process_and_store_document_cases w u markdown)
    as [[rs [Hrun [_ [Hn _]]]] | [e Hrun]]; rewrite Hrun in *; cbn [fst snd] in *.
  - rewrite stored_numbers_chunks, stored_chunks_app,
      stored_chunks_enrich_phase, stored_chunks_inserts. exact Hn.
  - discriminate.
Qed.

Lemma all_ok_inv {A : Type} (rs : list (result A)) (l : list A) :
  all_ok rs = Ok l -> Forall (fun r => exists a, r = Ok a) rs.
Proof.
  revert l. induction rs as [|r rs IH]; intros l H; [constructor|].
  cbn [all_ok] in H. destruct r as [a|]; [|discriminate]. cbn [bind] in H.
  destruct (all_ok rs) as [l'|]; [|discriminate].
  constructor; [exists a; reflexivity | exact (IH l' eq_refl)].
Qed.

(** A crawl that returns has, for every page fetched with success,
    called the enricher and the store once per chunk, with the chunk
    numbers of that page, and has called neither for the URLs whose fetch
    reported failure. *)
Theorem crawl_urls_returns (w : World) (arun : str -> result CrawlResult)
  (urls : list str) (calls : list event) :
  crawl_urls w arun urls = Ok calls ->
  enriched_numbers calls = flat_map (page_numbers arun) urls
  /\ stored_numbers calls = flat_map (page_numbers arun) urls.
Proof.
  unfold crawl_urls, gather.
  destruct (all_ok (map snd (map (process_url w arun) urls))) as [l|] eqn:Hl;
    [|discriminate].
  intros H. injection H as <-. apply all_ok_inv in Hl. clear l.
  induction urls as [|u urls IH]; [split; reflexivity|].
  cbn [map] in Hl. apply Forall_cons_iff in Hl. destruct Hl as [[[] Hu] Hl].
  destruct (IH Hl) as [IH1 IH2].
  destruct (process_url_returns w arun u Hu) as [H1 H2].
  cbn [map concat flat_map].
  rewrite enriched_numbers_app, stored_numbers_app, IH1, IH2, H1, H2.
  split; reflexivity.
Qed.

(** Fetches that report failure are skipped: when no fetch raises and
    none succeeds, the crawl calls neither the enricher nor the store and
    returns normally. *)
Theorem crawl_urls_all_failed (w : World) (arun : str -> result CrawlResult)
  (urls : list str) :
  (forall u, In u urls ->
             exists fetched, arun u = Ok fetched /\ success fetched = false) ->
  crawl_urls w arun urls = Ok [].
Proof.
  intros H.
  assert (Hg : gather (map (process_url w arun) urls)
               = ([], Ok (map (fun _ => tt) urls))).
  { unfold gather. induction urls as [|u urls IH]; [reflexivity|].
    assert (Hrest : forall u', In u' urls ->
                      exists fetched, arun u' = Ok fetched
                                      /\ success fetched = false).
    { intros u' Hu'. apply H. right. exact Hu'. }
    specialize (IH Hrest). injection IH as IH1 IH2.
    destruct (H u (or_introl eq_refl)) as [fetched [Hf Hs]].
    cbn [map concat fst snd all_ok]. unfold process_url at 1 3.
    rewrite Hf, Hs. cbn [fst snd bind app]. rewrite IH1, IH2. reflexivity. }
  unfold crawl_urls. rewrite Hg. reflexivity.
Qed.

Lemma all_ok_raises {A : Type} (rs : list (result A)) (e : exn) :
  In (Raise e) rs -> exists e', all_ok rs = Raise e'.
Proof.
  induction rs as [|r rs IH]; intros Hin; [destruct Hin|].
  cbn [all_ok]. destruct r as [a|e0].
  - destruct Hin as [Heq | Hin]; [discriminate|].
    destruct (IH Hin) as [e' ->]. exists e'. reflexivity.
  - exists e0. reflexivity.
Qed.

(** Nothing below the crawl is caught above it: if the task of one URL
    raises, because the fetch raised or because the document pipeline did,
    the gathered crawl raises. *)
Theorem crawl_urls_raises (w : World) (arun : str -> result CrawlResult)
  (urls : list str) (u : str) (e : exn) :
  In u urls -> snd (process_url w arun u) = Raise e ->
  exists e', crawl_urls w arun urls = Raise e'.
Proof.
  intros Hin Hr. unfold crawl_urls, gather.
  destruct (all_ok_raises (map snd (map (process_url w arun) urls)) e)
    as [e' ->]; [|exists e'; reflexivity].
  rewrite <- Hr. apply in_map, in_map. exact Hin.
Qed.

Lemma crawl_urls_returns_witness :
  enriched_numbers [ProcessChunkCalled (lit "hello") 0 docs_url;
                    InsertChunkCalled hello_chunk]
  = flat_map (page_numbers arun_introduction) three_urls
  /\ stored_numbers [ProcessChunkCalled (lit "hello") 0 docs_url;
                     InsertChunkCalled hello_chunk]
     = flat_map (page_numbers arun_introduction) three_urls.
Proof.
  apply (crawl_urls_returns answering_world arun_introduction three_urls).
  vm_compute. reflexivity.
Defined.

Lemma crawl_urls_all_failed_witness :
  crawl_urls answering_world arun_failing three_urls = Ok [].
Proof.
  apply (crawl_urls_all_failed answering_world arun_failing three_urls).
  intros u _. eexists. split; reflexivity.
Defined.

(** One page, one chunk, one answer without the 'title' key: the
    KeyError of process_chunk ends the whole crawl. *)
Lemma crawl_urls_raises_witness :
  exists e', crawl_urls keyless_world arun_introduction three_urls = Raise e'.
Proof.
  apply (crawl_urls_raises keyless_world arun_introduction three_urls
           docs_url (KeyError (lit "title"))).
  - left. reflexivity.
  - vm_compute. reflexivity.
Defined.

(** * main *)

(** main end to end: it crawls nothing when the introduction page cannot
    be fetched; and when it crawls, the URLs are distinct, there is one task
    per URL, and with the browser started at most five fetches are ever in
    flight. *)
Theorem main_crawls_bounded (site : Site) :
  (forall e started,
     page_hrefs site (base_url ++ lit "/introduction") = Raise e ->
     main site started = NothingToCrawl)
  /\ (forall urls gate,
        main site (Ok tt) = Crawling urls gate ->
        urls = get_ultravox_docs_urls site /\ urls <> [] /\ NoDup urls
        /\ exists s0,
             gate = Ok s0 /\ permits s0 = 5
             /\ length (url_tasks s0) = length urls
             /\ forall moves s, run s0 moves = Some s -> in_flight s <= 5).
Proof.
  split.
  - intros e started He. unfold main, get_ultravox_docs_urls.
    rewrite He. reflexivity.
  - intros urls gate. unfold main.
    pose proof (get_ultravox_docs_urls_NoDup site) as Hn.
    destruct (get_ultravox_docs_urls site) as [|u0 us] eqn:Eu; [discriminate|].
    intros H. injection H as <- <-.
    split; [reflexivity|]. split; [discriminate|]. split; [exact Hn|].
    eexists. split; [reflexivity|]. split; [reflexivity|].
    split; [cbn [url_tasks]; apply length_map|].
    intros moves s Hrun.
    assert (Hinv : gate_invariant 5 s).
    { eapply gate_invariant_run; [|exact Hrun].
      apply (gate_invariant_start (u0 :: us)). reflexivity. }
    pose proof (in_flight_le_held s). destruct Hinv as [H0 H1]. lia.
Qed.

Lemma main_crawls_bounded_witness :
  exists s0,
    main docs_site (Ok tt)
    = Crawling [lit "https://docs.ultravox.ai/introduction";
                lit "https://docs.ultravox.ai/api"] (Ok s0)
    /\ permits s0 = 5
    /\ forall moves s, run s0 moves = Some s -> in_flight s <= 5.
Proof.
  destruct (proj2 (main_crawls_bounded docs_site)
              [lit "https://docs.ultravox.ai/introduction";
               lit "https://docs.ultravox.ai/api"]
              (Ok {| permits := 5; url_tasks := [AtGate; AtGate] |})
              eq_refl)
    as [_ [_ [_ [s0 [Hg [Hp [_ Hb]]]]]]].
  exists s0. injection Hg as <-. split; [reflexivity|]. split; assumption.
Defined.
